(** * The i18n loader: language choice, dictionary lookup, page translation

    A shallow embedding of the i18n runtime (src/i18n.js and its two earlier
    revisions) and the properties of it that the specification states.

    Conventions of the embedding.
    - A JavaScript string is a [string]; a character stands for one code unit
      below 256.  [trim] removes the code units that ECMAScript counts as
      white space or line terminators in that range.
    - A parsed JSON document is a [json]; [undefined] is [None] of an option.
    - The page is a [document]: its language attribute, its title, the
      attributes of its description meta element, and the forest of its other
      nodes.  The title and the description meta element are held apart from
      that forest.  DOM operations are total: the exception that
      [setAttribute] raises on a string that cannot name an attribute is
      outside the model.
    - Code that can throw runs in the monad [M], a state monad over [world]
      with exceptions; [try_catch] is the try statement.  An async function
      is run to completion, a rejected promise is a throw, and calls of
      [setLang] do not overlap. *)

From stdpp Require Import gmap strings list.
From Stdlib Require Import Ascii QArith.

Local Open Scope string_scope.
Local Open Scope list_scope.

(** ** Strings *)

(** White space and line terminators among the code units below 256:
    TAB, LF, VT, FF, CR, SP and NBSP. *)
Definition is_space (c : ascii) : bool :=
  existsb (Ascii.eqb c) ["009"; "010"; "011"; "012"; "013"; " "; "160"]%char.

Fixpoint trim_start (s : string) : string :=
  match s with
  | String c r => if is_space c then trim_start r else s
  | EmptyString => EmptyString
  end.

Fixpoint trim_end (s : string) : string :=
  match s with
  | String c r =>
      match trim_end r with
      | EmptyString => if is_space c then EmptyString else String c EmptyString
      | r' => String c r'
      end
  | EmptyString => EmptyString
  end.

(** [String.prototype.trim]. *)
Definition trim (s : string) : string := trim_end (trim_start s).

(** [s.split(sep)] for a one-character separator: never empty, and [[""]]
    on the empty string. *)
Fixpoint split (sep : ascii) (s : string) : list string :=
  match s with
  | EmptyString => [EmptyString]
  | String c r =>
      if Ascii.eqb c sep then EmptyString :: split sep r
      else match split sep r with
           | h :: t => String c h :: t
           | [] => [String c EmptyString]
           end
  end.

(** [s.includes(c)]. *)
Fixpoint includes (c : ascii) (s : string) : bool :=
  match s with
  | EmptyString => false
  | String d r => Ascii.eqb d c || includes c r
  end.

(** ASCII lower case, which the DOM applies to the attribute names of an
    HTML element before it reads or writes an attribute. *)
Definition lower (c : ascii) : ascii :=
  let n := N_of_ascii c in
  if (65 <=? n)%N && (n <=? 90)%N then ascii_of_N (n + 32) else c.

Fixpoint lowercase (s : string) : string :=
  match s with
  | EmptyString => EmptyString
  | String c r => String (lower c) (lowercase r)
  end.

(** [Boolean(s)] on a string: the empty string is the only falsy one. *)
Definition nonempty (s : string) : bool := negb (String.eqb s "").

(** A string some character of which is not white space. *)
Fixpoint has_ink (s : string) : bool :=
  match s with
  | EmptyString => false
  | String c r => negb (is_space c) || has_ink r
  end.

(** ** JSON values *)

#[warnings="-register-all"]
Inductive json : Type :=
  | JNull
  | JBool (b : bool)
  | JNum (q : Q)
  | JStr (s : string)
  | JArr (items : list json)
  | JObj (props : gmap string json).

(** [{}] *)
Definition empty_object : json := JObj ∅.

(** [Boolean(v)]: [null], [false], zero and the empty string are falsy. *)
Definition truthy (v : json) : bool :=
  match v with
  | JNull => false
  | JBool b => b
  | JNum q => negb (Z.eqb (Qnum q) 0)
  | JStr s => nonempty s
  | JArr _ => true
  | JObj _ => true
  end.

(** [v || {}] *)
Definition or_empty (v : json) : json := if truthy v then v else empty_object.

(** [v || {}] for a variable that is [null] until assigned. *)
Definition or_empty_opt (v : option json) : json :=
  match v with
  | Some j => or_empty j
  | None => empty_object
  end.

Definition digit (c : ascii) : option N :=
  let n := N_of_ascii c in
  if (48 <=? n)%N && (n <=? 57)%N then Some (n - 48)%N else None.

Fixpoint digits (acc : N) (s : string) : option N :=
  match s with
  | EmptyString => Some acc
  | String c r =>
      match digit c with
      | Some d => digits (10 * acc + d)%N r
      | None => None
      end
  end.

(** The index a property name denotes, when it is the canonical decimal
    numeral of a natural number: ["0"], or digits with no leading zero. *)
Definition array_index (part : string) : option N :=
  match part with
  | EmptyString => None
  | String "0" EmptyString => Some 0%N
  | String "0" _ => None
  | _ => digits 0 part
  end.

Definition number_of_nat (n : nat) : json := JNum (inject_Z (Z.of_nat n)).

(** [Object.prototype.hasOwnProperty.call(v, part) ? v[part] : undefined]
    on a truthy [v].  A mapping owns its keys; an array owns its indices and
    [length]; a string is wrapped in a String object, which owns [length]
    and one index per code unit; a boolean or a number is wrapped in an
    object that owns nothing. *)
Definition own_property (v : json) (part : string) : option json :=
  match v with
  | JObj props => props !! part
  | JArr items =>
      if String.eqb part "length" then Some (number_of_nat (length items))
      else match array_index part with
           | Some i => items !! N.to_nat i
           | None => None
           end
  | JStr s =>
      if String.eqb part "length" then Some (number_of_nat (String.length s))
      else match array_index part with
           | Some i =>
               match String.get (N.to_nat i) s with
               | Some c => Some (JStr (String c EmptyString))
               | None => None
               end
           | None => None
           end
  | JNull | JBool _ | JNum _ => None
  end.

(** The callback of the [reduce] in [getByPath]:
    [acc && hasOwnProperty.call(acc, part) ? acc[part] : undefined]. *)
Definition descend (acc : option json) (part : string) : option json :=
  match acc with
  | Some v => if truthy v then own_property v part else None
  | None => None
  end.

Definition getByPath (obj : json) (path : string) : option json :=
  if negb (truthy obj) || negb (nonempty path) then None
  else fold_left descend (split "." path) (Some obj).

(** [typeof v === 'string' && v.trim().length > 0], giving the string. *)
Definition filled_string (v : option json) : option string :=
  match v with
  | Some (JStr s) => if (0 <? String.length (trim s))%nat then Some s else None
  | _ => None
  end.

(** The [resolve] closure of [applyTranslations]; [None] is [undefined]. *)
Definition resolve (dict fallbackDict : json) (key : string) : option string :=
  if negb (nonempty key) then None
  else match filled_string (getByPath dict key) with
       | Some v => Some v
       | None =>
           if truthy fallbackDict
           then filled_string (getByPath fallbackDict key)
           else None
       end.

(** ** The page *)

#[warnings="-register-all"]
Inductive node : Type :=
  | Text (data : string)
  | Elem (tag : string) (attrs : gmap string string) (children : list node).

Record document : Type := Document {
  doc_lang : string;                              (* documentElement.lang *)
  doc_title : string;                             (* document.title *)
  doc_description : option (gmap string string);  (* meta[name="description"] *)
  doc_body : list node
}.

(** One assignment made by [applyTranslations], with the key it came from. *)
Inductive dom_write : Type :=
  | WTitle (key value : string)
  | WMetaContent (key value : string)
  | WText (key value : string)
  | WHtml (key value : string)
  | WAttr (attr key value : string).

Definition write_key (w : dom_write) : string :=
  match w with
  | WTitle k _ | WMetaContent k _ | WText k _ | WHtml k _ | WAttr _ k _ => k
  end.

Definition write_value (w : dom_write) : string :=
  match w with
  | WTitle _ v | WMetaContent _ v | WText _ v | WHtml _ v | WAttr _ _ v => v
  end.


Definition node_attrs (n : node) : gmap string string :=
  match n with
  | Text _ => ∅
  | Elem _ attrs _ => attrs
  end.

(** [el.setAttribute(name, value)] on the attributes of an HTML element.
    The marker attributes that the script reads are written in lower case,
    so reading one of them is a lookup. *)
Definition setAttribute (name value : string) (attrs : gmap string string)
    : gmap string string :=
  <[lowercase name := value]> attrs.

(** [part && part.trim()] on an element of the array a split returns. *)
Definition and_trim (part : option string) : option string :=
  match part with
  | Some s => if nonempty s then Some (trim s) else Some s
  | None => None
  end.

(** [spec.split(';').map((s) => s.trim()).filter(Boolean)] *)
Definition pieces (spec : string) : list string :=
  List.filter nonempty (map trim (split ";" spec)).

Section Apply.

(** The browser's HTML fragment parser: context element's tag, markup. *)
Variable parseHTML : string → string → list node.

(** The two arguments of [applyTranslations], which [resolve] closes over. *)
Variables dict fallbackDict : json.

(** The callback of [querySelectorAll('[data-i18n]').forEach].  The node
    list is computed before the first callback runs, so elements below one
    whose text is replaced are still visited, detached from the page. *)
Fixpoint text_pass (n : node) : node * list dom_write :=
  match n with
  | Text s => (Text s, [])
  | Elem tag attrs children =>
      let below := map text_pass children in
      match attrs !! "data-i18n" with
      | Some key =>
          match resolve dict fallbackDict key with
          | Some value =>
              (Elem tag attrs [Text value],
               WText key value :: concat (map snd below))
          | None => (Elem tag attrs (map fst below), concat (map snd below))
          end
      | None => (Elem tag attrs (map fst below), concat (map snd below))
      end
  end.

(** The callback of [querySelectorAll('[data-i18n-html]').forEach]. *)
Fixpoint html_pass (n : node) : node * list dom_write :=
  match n with
  | Text s => (Text s, [])
  | Elem tag attrs children =>
      let below := map html_pass children in
      match attrs !! "data-i18n-html" with
      | Some key =>
          match resolve dict fallbackDict key with
          | Some value =>
              (Elem tag attrs (parseHTML tag value),
               WHtml key value :: concat (map snd below))
          | None => (Elem tag attrs (map fst below), concat (map snd below))
          end
      | None => (Elem tag attrs (map fst below), concat (map snd below))
      end
  end.

(** The callback of the inner [forEach] over the pairs of one element,
    threading the element's attributes and the writes made so far. *)
Definition bind_pair (el : gmap string string * list dom_write)
    (pair : string) : gmap string string * list dom_write :=
  let parts := split ":" pair in
  match and_trim (parts !! 0%nat), and_trim (parts !! 1%nat) with
  | Some attr, Some key =>
      if negb (nonempty attr) || negb (nonempty key) then el
      else match resolve dict fallbackDict key with
           | Some value =>
               (setAttribute attr value el.1, el.2 ++ [WAttr attr key value])
           | None => el
           end
  | _, _ => el
  end.

(** [el.getAttribute('data-i18n-attr') || ''] and the pairs in it. *)
Definition bind_attrs (attrs : gmap string string)
    : gmap string string * list dom_write :=
  let spec := default "" (attrs !! "data-i18n-attr") in
  fold_left bind_pair (pieces spec) (attrs, []).

(** The callback of [querySelectorAll('[data-i18n-attr]').forEach]. *)
Fixpoint attr_pass (n : node) : node * list dom_write :=
  match n with
  | Text s => (Text s, [])
  | Elem tag attrs children =>
      let below := map attr_pass children in
      let own := bind_attrs attrs in
      (Elem tag own.1 (map fst below), own.2 ++ concat (map snd below))
  end.

Definition set_title (d : document) : document * list dom_write :=
  match resolve dict fallbackDict "meta.title" with
  | Some metaTitle =>
      (Document (doc_lang d) metaTitle (doc_description d) (doc_body d),
       [WTitle "meta.title" metaTitle])
  | None => (d, [])
  end.

Definition set_description (d : document) : document * list dom_write :=
  match resolve dict fallbackDict "meta.description" with
  | Some metaDesc =>
      match doc_description d with
      | Some meta =>
          (Document (doc_lang d) (doc_title d)
             (Some (setAttribute "content" metaDesc meta)) (doc_body d),
           [WMetaContent "meta.description" metaDesc])
      | None => (d, [])
      end
  | None => (d, [])
  end.

(** One [querySelectorAll(...).forEach(...)] over the page. *)
Definition over_body (pass : node → node * list dom_write) (d : document)
    : document * list dom_write :=
  let visited := map pass (doc_body d) in
  (Document (doc_lang d) (doc_title d) (doc_description d) (map fst visited),
   concat (map snd visited)).

(** Sequencing of two steps that write to the page. *)
Definition and_then (f g : document → document * list dom_write)
    (d : document) : document * list dom_write :=
  let r1 := f d in
  let r2 := g r1.1 in
  (r2.1, r1.2 ++ r2.2).

(** [applyTranslations(dict, fallbackDict)] on the page: the page it
    leaves and the writes it made, in order. *)
Definition applyTranslations : document → document * list dom_write :=
  and_then set_title
    (and_then set_description
       (and_then (over_body text_pass)
          (and_then (over_body html_pass) (over_body attr_pass)))).


End Apply.

(** [updateLangUi]: the pressed state of one switch control and of those
    below it. *)
Fixpoint press (lang : string) (n : node) : node :=
  match n with
  | Text s => Text s
  | Elem tag attrs children =>
      let attrs' :=
        match attrs !! "data-set-lang" with
        | Some code =>
            let isActive := String.eqb code lang in
            setAttribute "aria-pressed" (if isActive then "true" else "false") attrs
        | None => attrs
        end in
      Elem tag attrs' (map (press lang) children)
  end.

Definition updateLangUi (lang : string) (d : document) : document :=
  if negb (nonempty lang) then d
  else Document lang (doc_title d) (doc_description d)
         (map (press lang) (doc_body d)).

(** ** The world the script runs in *)

Inductive level : Type := LLog | LDebug | LWarn | LError.

(** What a run does that can be seen from outside, in order: console
    output, network requests, calls of [applyTranslations] with their
    arguments, and the writes those calls make. *)
Inductive event : Type :=
  | Console (lvl : level) (message detail : string)
  | Fetch (url : string)
  | Apply (dict fallbackDict : json)
  | Dom (w : dom_write).

Record world : Type := World {
  storage : gmap string string;        (* localStorage *)
  page : document;
  lastDict : option json;              (* __lastDict, null at first *)
  lastFallback : option json;          (* __lastFallback *)
  window_i18n : option (gset string);  (* members of window.i18n, if defined *)
  events : list event
}.

Inductive response : Type :=
  | NetworkError
  | Http (status : N) (body : option json).  (* body: [None] if not JSON *)

(** What the script cannot control during one call. *)
Record env : Type := Env {
  net : string → response;
  storage_read_fails : bool;
  storage_write_fails : bool;
  window_sealed : bool;
  pathname : string                    (* window.location.pathname *)
}.

Inductive exn : Type :=
  | FetchError (url : string)
  | HttpError (url : string) (status : N)
  | JsonError (url : string)
  | StorageError
  | GlobalError.

Definition M (A : Type) : Type := world → (exn + A) * world.

#[global] Instance M_ret : MRet M := λ A a w, (inr a, w).

#[global] Instance M_bind : MBind M := λ A B f m w,
  match m w with
  | (inr a, w') => f a w'
  | (inl x, w') => (inl x, w')
  end.

Notation "m ;; k" := (m ≫= (λ _, k))
  (at level 100, k at level 200, right associativity) : stdpp_scope.

Definition throw {A : Type} (x : exn) : M A := λ w, (inl x, w).

(** [try { body } catch (e) { handler(e) }] *)
Definition try_catch {A : Type} (body : M A) (handler : exn → M A) : M A :=
  λ w, match body w with
       | (inl x, w') => handler x w'
       | (inr a, w') => (inr a, w')
       end.

Definition emits (evs : list event) (w : world) : world :=
  World (storage w) (page w) (lastDict w) (lastFallback w) (window_i18n w)
    (events w ++ evs).

Definition emit (ev : event) : M unit := λ w, (inr (), emits [ev] w).

Definition console (lvl : level) (message detail : string) : M unit :=
  emit (Console lvl message detail).

Definition STORAGE_KEY : string := "lang".
Definition DEFAULT_LANG : string := "hu".
Definition SUPPORTED : gset string := {[ "hu"; "it" ]}.

(** [SUPPORTED.has(code)] *)
Definition SUPPORTED_has (code : string) : bool := bool_decide (code ∈ SUPPORTED).

Definition localStorage_getItem (e : env) (key : string) : M (option string) :=
  λ w, if storage_read_fails e then (inl StorageError, w)
       else (inr (storage w !! key), w).

Definition localStorage_setItem (e : env) (key value : string) : M unit :=
  λ w, if storage_write_fails e then (inl StorageError, w)
       else (inr (),
             World (<[key := value]> (storage w)) (page w) (lastDict w)
               (lastFallback w) (window_i18n w) (events w)).

Definition getInitialLang (e : env) : M string :=
  saved ← try_catch
    (saved ← localStorage_getItem e STORAGE_KEY;
     mret (match saved with
           | Some code =>
               if nonempty code && SUPPORTED_has code then Some code else None
           | None => None
           end))
    (λ _, mret None);
  match saved with
  | Some code => mret code
  | None =>
      λ w, let docLang := doc_lang (page w) in
           if nonempty docLang && SUPPORTED_has docLang then (inr docLang, w)
           else (inr DEFAULT_LANG, w)
  end.

(** [res.ok] *)
Definition ok (status : N) : bool := (200 <=? status)%N && (status <=? 299)%N.

(** What awaiting [fetchJson(url)] gives. *)
Definition fetched (e : env) (url : string) : exn + json :=
  match net e url with
  | NetworkError => inl (FetchError url)
  | Http status body =>
      if negb (ok status) then inl (HttpError url status)
      else match body with
           | Some doc => inr doc
           | None => inl (JsonError url)
           end
  end.

Definition fetchJson (e : env) (url : string) : M json :=
  emit (Fetch url);;
  match fetched e url with
  | inl x => throw x
  | inr doc => mret doc
  end.

Section Runtime.

Variable parseHTML : string → string → list node.

(** A call of [applyTranslations]. *)
Definition callApplyTranslations (dict fallbackDict : json) : M unit :=
  λ w, let r := applyTranslations parseHTML dict fallbackDict (page w) in
       (inr (),
        World (storage w) r.1 (lastDict w) (lastFallback w) (window_i18n w)
          (events w ++ Apply dict fallbackDict :: map Dom r.2)).

Definition callUpdateLangUi (lang : string) : M unit :=
  λ w, (inr (),
        World (storage w) (updateLangUi lang (page w)) (lastDict w)
          (lastFallback w) (window_i18n w) (events w)).

(** [__lastDict = dict || {}; __lastFallback = fallbackDict || {}] *)
Definition remember (dict fallbackDict : json) : M unit :=
  λ w, (inr (),
        World (storage w) (page w) (Some dict) (Some fallbackDict)
          (window_i18n w) (events w)).

(** [window.i18n = window.i18n || {}] and the two members set on it. *)
Definition expose (e : env) : M unit :=
  λ w, if window_sealed e then (inl GlobalError, w)
       else (inr (),
             World (storage w) (page w) (lastDict w) (lastFallback w)
               (Some ({[ "refresh"; "setLang" ]} ∪ default ∅ (window_i18n w)))
               (events w)).

(** [window.i18n.refresh()], for a caller that found it installed. *)
Definition refresh : M unit :=
  λ w, callApplyTranslations (or_empty_opt (lastDict w))
         (or_empty_opt (lastFallback w)) w.

(** [!dict] on a variable that is [null] until assigned. *)
Definition missing (dict : option json) : bool :=
  match dict with
  | Some doc => negb (truthy doc)
  | None => true
  end.

(** [if (!SUPPORTED.has(lang)) lang = DEFAULT_LANG], the first statement
    of every revision of [setLang] after its console line. *)
Definition normalise (lang : string) : string :=
  if SUPPORTED_has lang then lang else DEFAULT_LANG.

(** *** src/i18n.js: a list of base paths tried in order *)

Definition getI18nBasePath : string := "./i18n/".

Definition bases : list string := [getI18nBasePath; "./"; "/i18n/"].

(** The loop over [bases] that loads the requested dictionary. *)
Fixpoint load_dict (e : env) (lang : string) (bs : list string)
    : M (option json) :=
  match bs with
  | [] => mret None
  | b :: rest =>
      let dictUrl := b +:+ lang +:+ ".json" in
      got ← try_catch
        (dict ← fetchJson e dictUrl;
         console LDebug "[i18n] fetched" dictUrl;;
         mret (Some dict))
        (λ _, console LWarn "[i18n] fetch failed" dictUrl;; mret None);
      match got with
      | Some dict => mret (Some dict)
      | None => load_dict e lang rest
      end
  end.

(** The loop that applies the default language when the requested one
    could not be loaded; the result is [fallbackLoaded]. *)
Fixpoint apply_default (e : env) (bs : list string) : M bool :=
  match bs with
  | [] => mret false
  | b :: rest =>
      let defUrl := b +:+ DEFAULT_LANG +:+ ".json" in
      fallbackLoaded ← try_catch
        (baseDict ← fetchJson e defUrl;
         callApplyTranslations (or_empty baseDict) empty_object;;
         console LDebug "[i18n] applied default translations from" defUrl;;
         mret true)
        (λ _, console LWarn "[i18n] fallback fetch failed" defUrl;; mret false);
      match fallbackLoaded with
      | true => mret true
      | false => apply_default e rest
      end
  end.

(** The loop that loads the default language as the fallback layer. *)
Fixpoint load_fallback (e : env) (bs : list string) : M (option json) :=
  match bs with
  | [] => mret None
  | b :: rest =>
      let fallbackUrl := b +:+ DEFAULT_LANG +:+ ".json" in
      got ← try_catch
        (fallbackDict ← fetchJson e fallbackUrl;
         console LDebug "[i18n] fetched fallback" fallbackUrl;;
         mret (Some fallbackDict))
        (λ _, console LWarn "[i18n] fetch failed fallback" fallbackUrl;;
              mret None);
      match got with
      | Some fallbackDict => mret (Some fallbackDict)
      | None => load_fallback e rest
      end
  end.

Definition setLang (e : env) (requested : string) : M unit :=
  console LLog "[i18n] setLang()" requested;;
  let lang := normalise requested in
  try_catch (localStorage_setItem e STORAGE_KEY lang) (λ _, mret ());;
  callUpdateLangUi lang;;
  dict ← load_dict e lang bases;
  if missing dict then
    console LError "[i18n] failed to load any language file for" lang;;
    if negb (String.eqb lang DEFAULT_LANG) then
      fallbackLoaded ← apply_default e bases;
      if negb fallbackLoaded
      then console LWarn "[i18n] could not load any default translations" ""
      else mret ()
    else mret ()
  else
    fallbackDict ←
      (if negb (String.eqb lang DEFAULT_LANG) then
         fallbackDict ← load_fallback e bases;
         (if missing fallbackDict
          then console LWarn "[i18n] could not load fallback language" ""
          else mret ());;
         mret fallbackDict
       else mret None);
    callApplyTranslations (or_empty_opt dict) (or_empty_opt fallbackDict);;
    remember (or_empty_opt dict) (or_empty_opt fallbackDict);;
    try_catch (expose e) (λ _, mret ());;
    console LDebug "[i18n] translations applied for" lang.

End Runtime.

(** *** The first earlier revision: one fixed relative path, no global API *)

Module FixedPath.
Section Runtime.

Variable parseHTML : string → string → list node.

Definition setLang (e : env) (requested : string) : M unit :=
  console LLog "[i18n] setLang()" requested;;
  let lang := normalise requested in
  try_catch (localStorage_setItem e STORAGE_KEY lang) (λ _, mret ());;
  callUpdateLangUi lang;;
  try_catch
    (dict ← fetchJson e ("i18n/" +:+ lang +:+ ".json");
     console LDebug "[i18n] fetched" ("i18n/" +:+ lang +:+ ".json");;
     fallbackDict ←
       (if negb (String.eqb lang DEFAULT_LANG) then
          try_catch
            (fallbackDict ← fetchJson e ("i18n/" +:+ DEFAULT_LANG +:+ ".json");
             console LDebug "[i18n] fetched fallback"
               ("i18n/" +:+ DEFAULT_LANG +:+ ".json");;
             mret (Some fallbackDict))
            (λ _, console LWarn "[i18n] could not load fallback language" "";;
                  mret None)
        else mret None);
     callApplyTranslations parseHTML (or_empty dict) (or_empty_opt fallbackDict);;
     console LDebug "[i18n] translations applied for" lang)
    (λ _,
       console LError "[i18n] failed to load" lang;;
       if negb (String.eqb lang DEFAULT_LANG) then
         try_catch
           (base ← fetchJson e ("i18n/" +:+ DEFAULT_LANG +:+ ".json");
            callApplyTranslations parseHTML (or_empty base) empty_object)
           (λ _, console LWarn "[i18n] could not load default translations" "")
       else mret ()).

End Runtime.
End FixedPath.

(** *** The second earlier revision: a base path derived from the page's
    own path, and the global API *)

Module DerivedPath.
Section Runtime.

Variable parseHTML : string → string → list node.

Definition getI18nBasePath (e : env) : string :=
  let p := if nonempty (pathname e) then pathname e else "/" in
  let segments := List.filter nonempty (split "/" p) in
  match segments with
  | [] => "/i18n/"
  | first :: _ =>
      if includes "." first then "/i18n/" else "/" +:+ first +:+ "/i18n/"
  end.

Definition setLang (e : env) (requested : string) : M unit :=
  console LLog "[i18n] setLang()" requested;;
  let lang := normalise requested in
  try_catch (localStorage_setItem e STORAGE_KEY lang) (λ _, mret ());;
  callUpdateLangUi lang;;
  let base := getI18nBasePath e in
  try_catch
    (let dictUrl := base +:+ lang +:+ ".json" in
     dict ← fetchJson e dictUrl;
     console LDebug "[i18n] fetched" dictUrl;;
     fallbackDict ←
       (if negb (String.eqb lang DEFAULT_LANG) then
          try_catch
            (let fallbackUrl := base +:+ DEFAULT_LANG +:+ ".json" in
             fallbackDict ← fetchJson e fallbackUrl;
             console LDebug "[i18n] fetched fallback" fallbackUrl;;
             mret (Some fallbackDict))
            (λ _, console LWarn "[i18n] could not load fallback language" "";;
                  mret None)
        else mret None);
     callApplyTranslations parseHTML (or_empty dict) (or_empty_opt fallbackDict);;
     remember (or_empty dict) (or_empty_opt fallbackDict);;
     try_catch (expose e) (λ _, mret ());;
     console LDebug "[i18n] translations applied for" lang)
    (λ _,
       console LError "[i18n] failed to load" lang;;
       if negb (String.eqb lang DEFAULT_LANG) then
         try_catch
           (let basePath := getI18nBasePath e in
            let defUrl := basePath +:+ DEFAULT_LANG +:+ ".json" in
            base ← fetchJson e defUrl;
            callApplyTranslations parseHTML (or_empty base) empty_object)
           (λ _, console LWarn "[i18n] could not load default translations" "")
       else mret ()).

End Runtime.
End DerivedPath.

(** ** The resolution rule as the specification words it *)

(** Traversal that continues at a segment only if the current value is a
    mapping with that segment as a key of its own. *)
Fixpoint traverse_mappings (v : json) (parts : list string) : option json :=
  match parts with
  | [] => Some v
  | part :: rest =>
      match v with
      | JObj props =>
          match props !! part with
          | Some v' => traverse_mappings v' rest
          | None => None
          end
      | _ => None
      end
  end.

(** The final value, if it is a string that is not empty after trimming. *)
Definition text_of (v : option json) : option string :=
  match v with
  | Some (JStr s) => if has_ink s then Some s else None
  | _ => None
  end.

Definition resolve_as_specified (primary fallback : json) (key : string)
    : option string :=
  match text_of (traverse_mappings primary (split "." key)) with
  | Some s => Some s
  | None => text_of (traverse_mappings fallback (split "." key))
  end.

(** What a value lets a traversal continue into: a mapping into the value
    of a key of its own; an array or a string that is not empty into
    [length] and into each index below its length. *)
Definition member (v : json) (part : string) : option json :=
  match v with
  | JObj props => props !! part
  | JArr items =>
      if String.eqb part "length" then Some (number_of_nat (length items))
      else i ← array_index part; items !! N.to_nat i
  | JStr s =>
      if nonempty s then
        if String.eqb part "length" then Some (number_of_nat (String.length s))
        else i ← array_index part;
             c ← String.get (N.to_nat i) s;
             Some (JStr (String c EmptyString))
      else None
  | JNull | JBool _ | JNum _ => None
  end.

Fixpoint traverse (v : json) (parts : list string) : option json :=
  match parts with
  | [] => Some v
  | part :: rest =>
      match member v part with
      | Some v' => traverse v' rest
      | None => None
      end
  end.

Definition resolve_by_members (primary fallback : json) (key : string)
    : option string :=
  if nonempty key then
    match text_of (traverse primary (split "." key)) with
    | Some s => Some s
    | None => text_of (traverse fallback (split "." key))
    end
  else None.

(** ** Vocabulary of the statements *)

(** The calls of [applyTranslations] in a trace, with their arguments. *)
Definition applied (evs : list event) : list (json * json) :=
  omap (λ ev, match ev with Apply d f => Some (d, f) | _ => None end) evs.

(** The requests in a trace. *)
Definition requested_urls (evs : list event) : list string :=
  omap (λ ev, match ev with Fetch url => Some url | _ => None end) evs.

(** Console output, and requests for one of [files] under some base path:
    events that leave the page and the script's variables alone. *)
Definition chatter (files : list string) (ev : event) : Prop :=
  match ev with
  | Console _ _ _ => True
  | Fetch url => ∃ b file, file ∈ files ∧ url = b +:+ file
  | Apply _ _ | Dom _ => False
  end.

(** The first dictionary that a request for [file] under the base paths
    [bs], tried in order, brings back. *)
Fixpoint first_fetched (e : env) (file : string) (bs : list string)
    : option json :=
  match bs with
  | [] => None
  | b :: rest =>
      match fetched e (b +:+ file) with
      | inr doc => Some doc
      | inl _ => first_fetched e file rest
      end
  end.

(** How a language switch ends, in the words of the specification. *)
Inductive outcome : Type :=
  | NoDictionary
  | DefaultOnly (dict : json)
  | Loaded (dict fallbackDict : json).

Section Outcomes.

Variable parseHTML : string → string → list node.

(** What each outcome does to the page and to the script's variables;
    [with_api] tells the revisions that install the global API apart
    from the one that does not. *)
Definition conclude (with_api : bool) (e : env) (o : outcome) (w : world)
    : world :=
  match o with
  | NoDictionary => w
  | DefaultOnly d => (callApplyTranslations parseHTML d empty_object w).2
  | Loaded d f =>
      let w1 := (callApplyTranslations parseHTML d f w).2 in
      if with_api
      then (try_catch (expose e) (λ _, mret ()) (remember d f w1).2).2
      else w1
  end.

(** The state after the statements of [setLang] that come before any
    request: the preference stored, the language shown in the page. *)
Definition prelude (e : env) (requested : string) (w : world) : world :=
  let lang := normalise requested in
  World
    (if storage_write_fails e then storage w
     else <[STORAGE_KEY := lang]> (storage w))
    (updateLangUi lang (page w)) (lastDict w) (lastFallback w)
    (window_i18n w)
    (events w ++ [Console LLog "[i18n] setLang()" requested]).

End Outcomes.

(** The outcome of src/i18n.js's [setLang], read off the responses. *)
Definition default_only (e : env) (bs : list string) : outcome :=
  match first_fetched e (DEFAULT_LANG +:+ ".json") bs with
  | Some d => DefaultOnly (or_empty d)
  | None => NoDictionary
  end.

Definition recovery (e : env) (lang : string) (bs : list string) : outcome :=
  if String.eqb lang DEFAULT_LANG then NoDictionary else default_only e bs.

Definition outcome_of (e : env) (lang : string) : outcome :=
  match first_fetched e (lang +:+ ".json") bases with
  | Some dict =>
      if truthy dict then
        Loaded dict
          (if String.eqb lang DEFAULT_LANG then empty_object
           else or_empty_opt (first_fetched e (DEFAULT_LANG +:+ ".json") bases))
      else recovery e lang bases
  | None => recovery e lang bases
  end.

(** The outcome of the earlier revisions, which request under one base. *)
Definition outcome_under (base : string) (e : env) (lang : string) : outcome :=
  match fetched e (base +:+ lang +:+ ".json") with
  | inr dict =>
      Loaded (or_empty dict)
        (if String.eqb lang DEFAULT_LANG then empty_object
         else or_empty_opt (first_fetched e (DEFAULT_LANG +:+ ".json") [base]))
  | inl _ => recovery e lang [base]
  end.

(** A pair of an attribute-binding marker, as the specification words it:
    the text before the first colon names the attribute, the text after it
    (up to a second colon) is the key, and neither may be blank. *)
Definition pair_parts (pair : string) : option (string * string) :=
  match split ":" pair with
  | name :: key :: _ =>
      if has_ink name && has_ink key then Some (trim name, trim key) else None
  | _ => None
  end.

Section Bindings.

Variables dict fallbackDict : json.

(** The write a pair asks for, if it is well formed and its key resolves. *)
Definition binding (pair : string) : option dom_write :=
  '(attr, key) ← pair_parts pair;
  value ← resolve dict fallbackDict key;
  Some (WAttr attr key value).

(** The writes an attribute-binding marker asks for, in order. *)
Definition bindings (spec : string) : list dom_write :=
  omap binding (pieces spec).

(** Carrying out attribute writes on an element, in order. *)
Definition perform (writes : list dom_write) (attrs : gmap string string)
    : gmap string string :=
  fold_left
    (λ m w, match w with WAttr attr _ value => setAttribute attr value m | _ => m end)
    writes attrs.

(** A marker value that is absent or whose key does not resolve. *)
Definition unresolved (marker : option string) : bool :=
  match marker with
  | Some key =>
      match resolve dict fallbackDict key with Some _ => false | None => true end
  | None => true
  end.

(** A node in which no binding resolves, on it or below it. *)
Fixpoint quiet (n : node) : bool :=
  match n with
  | Text _ => true
  | Elem _ attrs children =>
      unresolved (attrs !! "data-i18n")
      && unresolved (attrs !! "data-i18n-html")
      && match bindings (default "" (attrs !! "data-i18n-attr")) with
         | [] => true
         | _ => false
         end
      && forallb quiet children
  end.

(** A write whose value is what [dict], or failing that [fallbackDict],
    holds at the write's key: a string that trimming does not empty. *)
Definition genuine (w : dom_write) : Prop :=
  let key := write_key w in
  let value := write_value w in
  trim value ≠ "" ∧
  (getByPath dict key = Some (JStr value)
   ∨ (filled_string (getByPath dict key) = None
      ∧ getByPath fallbackDict key = Some (JStr value))).

End Bindings.

(** [node.textContent] *)
Fixpoint textContent (n : node) : string :=
  match n with
  | Text s => s
  | Elem _ _ children => String.concat "" (map textContent children)
  end.

(** A fragment parser for markup that has no tags in it. *)
Definition plain_text (tag markup : string) : list node := [Text markup].

(** The calls of [applyTranslations] that an outcome stands for. *)
Definition calls (o : outcome) : list (json * json) :=
  match o with
  | NoDictionary => []
  | DefaultOnly d => [(d, empty_object)]
  | Loaded d f => [(d, f)]
  end.

(** ** Sample dictionaries, responses and pages *)

Definition sample_it : json :=
  JObj {[ "meta" := JObj {[ "title" := JStr "Olasz verseny" ]};
          "form" := JObj {[ "name" := JStr "Nome"; "tooltip" := JStr " " ]} ]}.

Definition sample_hu : json :=
  JObj {[ "meta" := JObj {[ "title" := JStr "Olasz nyelvi verseny" ]};
          "form" := JObj {[ "name" := JStr "Nev"; "tooltip" := JStr "Segitseg" ]};
          "intro" := JStr "Szia" ]}.

(** A server that holds the given documents and answers 404 otherwise. *)
Definition serve (files : list (string * json)) (url : string) : response :=
  match List.find (λ f, String.eqb f.1 url) files with
  | Some f => Http 200 (Some f.2)
  | None => Http 404 None
  end.

Definition unreachable (url : string) : response := NetworkError.

Definition sample_env (network : string → response) : env :=
  Env network false false false "/".

(** Both dictionaries, under each place that some revision asks at. *)
Definition both_served : env :=
  sample_env
    (serve [("./i18n/it.json", sample_it); ("./i18n/hu.json", sample_hu);
            ("i18n/it.json", sample_it); ("i18n/hu.json", sample_hu);
            ("/i18n/it.json", sample_it); ("/i18n/hu.json", sample_hu)]).

(** The default dictionary only. *)
Definition default_served : env :=
  sample_env
    (serve [("./i18n/hu.json", sample_hu); ("i18n/hu.json", sample_hu);
            ("/i18n/hu.json", sample_hu)]).


Definition offline : env := sample_env unreachable.

(** No network, and a storage that throws on every access. *)
Definition storage_denied : env := Env unreachable true true false "/".

Definition sample_input : node :=
  Elem "input"
    {[ "data-i18n-attr" := "placeholder:form.name; oops; title:form.tooltip" ]}
    [].

Definition sample_paragraph : node :=
  Elem "p" {[ "data-i18n" := "missing" ]}
    [ Elem "b" {[ "data-i18n" := "intro" ]} [Text "old"] ].

Definition sample_page : document :=
  Document "hu" "Verseny" (Some {[ "name" := "description" ]})
    [ sample_paragraph; sample_input;
      Elem "button" {[ "data-set-lang" := "it" ]} [Text "IT"] ].

Definition sample_world : world := World ∅ sample_page None None None [].

(** The same, with Italian as the stored preference. *)
Definition returning_world : world :=
  World {[ STORAGE_KEY := "it" ]} sample_page None None None [].

(** ** The rest of the script: selection, handlers, start-up *)

(** [querySelectorAll('[name]')] below and at a node: the attributes of the
    elements that carry the attribute, in document order. *)
Fixpoint select (name : string) (n : node) : list (gmap string string) :=
  match n with
  | Text _ => []
  | Elem _ attrs children =>
      (match attrs !! name with Some _ => [attrs] | None => [] end)
      ++ concat (map (select name) children)
  end.

(** The URLs that a loop over base paths requests: one per base path, up
    to and including the first that brings a document back. *)
Fixpoint tried (e : env) (file : string) (bs : list string) : list string :=
  match bs with
  | [] => []
  | b :: rest =>
      (b +:+ file)
      :: match fetched e (b +:+ file) with
         | inr _ => []
         | inl _ => tried e file rest
         end
  end.

(** A node on the way from an event's target up to the document: an
    element with its attributes, or a node of another kind (a text node,
    the document). *)
Inductive chain_node : Type :=
  | NonElement
  | Element (attrs : gmap string string).

(** [while (el && el.nodeType !== Node.ELEMENT_NODE) el = el.parentNode],
    on the target followed by its ancestors; [[]] is [null]. *)
Fixpoint first_element (chain : list chain_node) : list chain_node :=
  match chain with
  | NonElement :: rest => first_element rest
  | _ => chain
  end.

(** [el.closest('[name]')] on an element followed by its ancestors: the
    walk goes through parent elements only. *)
Fixpoint closest (name : string) (chain : list chain_node)
    : option (gmap string string) :=
  match chain with
  | Element attrs :: rest =>
      match attrs !! name with
      | Some _ => Some attrs
      | None => closest name rest
      end
  | _ => None
  end.

(** [el.hasAttribute(name)] *)
Definition hasAttribute (name : string) (attrs : gmap string string) : bool :=
  match attrs !! name with Some _ => true | None => false end.

(** What the page's events carry that the handlers read. *)
Inductive dom_event : Type :=
  | ContentLoaded
  | Click (chain : list chain_node)           (* target, then its ancestors *)
  | Keydown (key : string) (active : option (gmap string string)).
                                               (* document.activeElement *)

Inductive listener : Type := OnContentLoaded | OnClick | OnKeydown.

(** A browser tab: the world, [document.readyState === 'loading'], and the
    listeners that the script has added to the document. *)
Record tab : Type := Tab {
  tab_world : world;
  tab_loading : bool;
  tab_listeners : list listener
}.

Section Controller.

Variable parseHTML : string → string → list node.

(** The three revisions of [setLang]: src/i18n.js, and the two in
    src/unnamed/part_000. *)
Definition revisions : list (env → string → M unit) :=
  [setLang parseHTML; FixedPath.setLang parseHTML; DerivedPath.setLang parseHTML].

(** The click listener; the result is whether it called
    [preventDefault].  The call of [setLang] that a listener starts is
    taken to its end before anything else happens, as everywhere here. *)
Definition on_click (e : env) (chain : list chain_node) : M bool :=
  match first_element chain with
  | (Element _ :: _) as el =>
      match closest "data-set-lang" el with
      | None => mret false
      | Some btn =>
          let next := default "" (btn !! "data-set-lang") in
          console LLog "[i18n] click on" next;;
          if negb (nonempty next) then mret true
          else setLang parseHTML e next;; mret true
      end
  | _ => mret false
  end.

(** The keydown listener. *)
Definition on_keydown (e : env) (key : string)
    (active : option (gmap string string)) : M bool :=
  if negb (String.eqb key "Enter") && negb (String.eqb key " ") then mret false
  else match active with
       | None => mret false
       | Some attrs =>
           match attrs !! "data-set-lang" with
           | Some next =>
               if nonempty next then setLang parseHTML e next;; mret true
               else mret true
           | None => mret false
           end
       end.

(** Running a computation on the world of a tab. *)
Definition in_tab {A : Type} (m : M A) (t : tab) : (exn + A) * tab :=
  let r := m (tab_world t) in
  (r.1, Tab r.2 (tab_loading t) (tab_listeners t)).

Definition addEventListener (l : listener) (t : tab) : tab :=
  Tab (tab_world t) (tab_loading t) (tab_listeners t ++ [l]).

Definition init (e : env) (t : tab) : (exn + unit) * tab :=
  match in_tab (lang ← getInitialLang e;
                console LLog "[i18n] init() initial lang=" lang;;
                mret lang) t with
  | (inr lang, t1) =>
      in_tab (setLang parseHTML e lang)
        (addEventListener OnKeydown (addEventListener OnClick t1))
  | (inl x, t1) => (inl x, t1)
  end.

(** The body of the script, run when the page loads it. *)
Definition script (e : env) (t : tab) : (exn + unit) * tab :=
  match in_tab (console LLog "[i18n] script loaded" "") t with
  | (inr _, t1) =>
      if tab_loading t1 then (inr (), addEventListener OnContentLoaded t1)
      else init e t1
  | (inl x, t1) => (inl x, t1)
  end.

(** One listener on one event: the tab it leaves, and whether it called
    [preventDefault].  A listener is not called for an event of another
    type. *)
Definition handle (e : env) (ev : dom_event) (l : listener) (t : tab)
    : tab * bool :=
  match l, ev with
  | OnContentLoaded, ContentLoaded => ((init e t).2, false)
  | OnClick, Click chain =>
      let r := in_tab (on_click e chain) t in
      (r.2, match r.1 with inr prevented => prevented | inl _ => false end)
  | OnKeydown, Keydown key active =>
      let r := in_tab (on_keydown e key active) t in
      (r.2, match r.1 with inr prevented => prevented | inl _ => false end)
  | _, _ => (t, false)
  end.

(** The document dispatching an event to the listeners it had when the
    event arrived, in the order they were added.  The page is past
    loading by the time [DOMContentLoaded] arrives. *)
Definition dispatch (e : env) (ev : dom_event) (t : tab) : tab * bool :=
  let t0 :=
    match ev with
    | ContentLoaded => Tab (tab_world t) false (tab_listeners t)
    | _ => t
    end in
  fold_left (λ acc l, let r := handle e ev l acc.1 in (r.1, acc.2 || r.2))
    (tab_listeners t0) (t0, false).

(** The tab after a series of events, each arriving in an environment of
    its own. *)
Definition after_events (evs : list (env * dom_event)) (t : tab) : tab :=
  fold_left (λ acc p, (dispatch p.1 p.2 acc).1) evs t.

End Controller.

(** What the script can read back of a world: everything but the trace. *)
Definition state_of (w : world)
    : gmap string string * document * option json * option json
      * option (gset string) :=
  (storage w, page w, lastDict w, lastFallback w, window_i18n w).

(** [document.querySelectorAll('[name]')] *)
Definition querySelectorAll (name : string) (d : document)
    : list (gmap string string) :=
  concat (map (select name) (doc_body d)).


(** A switch control with a label inside, as a click on the label sees
    it: the text node, the control, the document. *)
Definition sample_click : dom_event :=
  Click [NonElement; Element {[ "data-set-lang" := "it" ]}; NonElement].

(** * Properties *)

(** ** Strings *)

Example split_dots : split "." "a..b" = ["a"; ""; "b"].
Proof. reflexivity. Qed.

Example split_empty : split "." "" = [""].
Proof. reflexivity. Qed.

Example trim_both_ends : trim "  a b	 " = "a b".
Proof. reflexivity. Qed.

Example pieces_of_marker :
  pieces "placeholder:form.name; title:form.tooltip;;"
  = ["placeholder:form.name"; "title:form.tooltip"].
Proof. reflexivity. Qed.

Example index_canonical :
  array_index "10" = Some 10%N ∧ array_index "01" = None
  ∧ array_index "" = None ∧ array_index "1e0" = None.
Proof. repeat split. Qed.

Example base_path_of_project_page :
  DerivedPath.getI18nBasePath (Env unreachable false false false "/repo/page.html")
  = "/repo/i18n/".
Proof. reflexivity. Qed.

Example base_path_of_root_page :
  DerivedPath.getI18nBasePath (Env unreachable false false false "/page.html")
  = "/i18n/"
  ∧ DerivedPath.getI18nBasePath (Env unreachable false false false "") = "/i18n/".
Proof. split; reflexivity. Qed.

Lemma has_ink_trim_start s : has_ink (trim_start s) = has_ink s.
Proof.
  induction s as [|c r IH]; simpl; [done|].
  destruct (is_space c) eqn:Hc; simpl; [done|]. by rewrite Hc.
Qed.

Lemma trim_end_empty s : trim_end s = "" ↔ has_ink s = false.
Proof.
  induction s as [|c r IH]; simpl; [done|].
  destruct (trim_end r) as [|c' r'], (is_space c); simpl.
  - done.
  - split; congruence.
  - split; [done|]. intros H. by apply IH in H.
  - split; congruence.
Qed.

Lemma has_ink_trim s : has_ink s = true ↔ trim s ≠ "".
Proof.
  unfold trim. rewrite trim_end_empty, has_ink_trim_start.
  destruct (has_ink s); naive_solver.
Qed.

Lemma trim_length_has_ink s : (0 <? String.length (trim s))%nat = has_ink s.
Proof.
  destruct (has_ink s) eqn:H.
  - apply has_ink_trim in H. destruct (trim s); [done|reflexivity].
  - assert (trim s = "") as ->; [|reflexivity].
    unfold trim. apply trim_end_empty. by rewrite has_ink_trim_start.
Qed.

Lemma nonempty_true s : nonempty s = true ↔ s ≠ "".
Proof. destruct s; naive_solver. Qed.

Lemma has_ink_nonempty s : has_ink s = true → nonempty s = true.
Proof. by destruct s. Qed.

Lemma trim_has_ink_nonempty s : has_ink s = true → nonempty (trim s) = true.
Proof. intros H. apply nonempty_true. by apply has_ink_trim. Qed.

Lemma trim_blank s : has_ink s = false → trim s = "".
Proof.
  intros H. unfold trim. apply trim_end_empty. by rewrite has_ink_trim_start.
Qed.

Lemma split_cons sep s : ∃ h t, split sep s = h :: t.
Proof.
  induction s as [|c r (h & t & IH)]; simpl; [by eauto|].
  destruct (Ascii.eqb c sep); [by eauto|]. rewrite IH. by eauto.
Qed.

(** ** Key resolution *)

Lemma filled_string_text_of v : filled_string v = text_of v.
Proof.
  destruct v as [[| | |s| |]|]; simpl; try done.
  by rewrite trim_length_has_ink.
Qed.

Lemma descend_member v part : descend (Some v) part = member v part.
Proof.
  destruct v as [|b|q|s|items|props]; simpl; try done.
  - by destruct b.
  - by destruct (negb _).
Qed.

Lemma descend_undefined parts : fold_left descend parts None = None.
Proof. by induction parts. Qed.

Lemma reduce_traverse parts v :
  fold_left descend parts (Some v) = traverse v parts.
Proof.
  revert v. induction parts as [|part rest IH]; intros v; [done|].
  cbn [fold_left traverse]. rewrite descend_member.
  destruct (member v part) as [v'|]; [apply IH|apply descend_undefined].
Qed.

Lemma member_falsy v part : truthy v = false → member v part = None.
Proof.
  destruct v as [|b|q|s|items|props]; simpl; try done.
  by intros ->.
Qed.

Lemma getByPath_traverse obj path :
  nonempty path = true → getByPath obj path = traverse obj (split "." path).
Proof.
  intros Hpath. unfold getByPath. rewrite Hpath. simpl.
  destruct (truthy obj) eqn:Hobj; simpl; [apply reduce_traverse|].
  destruct (split_cons "." path) as (h & t & ->). simpl.
  by rewrite member_falsy.
Qed.

Lemma getByPath_falsy obj path : truthy obj = false → getByPath obj path = None.
Proof. intros H. unfold getByPath. by rewrite H. Qed.

(** C1, as amended.  [resolve] yields nothing for the empty key; for any
    other key it splits the key on ['.'] and walks the primary dictionary,
    going on at a segment when the current value is a mapping with that
    segment as a key of its own, or an array or non-empty string with that
    segment as [length] or as an index below its length; if the walk ends on
    a string that trimming does not empty, that string is the result;
    otherwise the same walk on the fallback decides; otherwise nothing. *)
Theorem resolve_by_own_members (primary fallback : json) (key : string) :
  resolve primary fallback key = resolve_by_members primary fallback key.
Proof.
  unfold resolve, resolve_by_members.
  destruct (nonempty key) eqn:Hkey; simpl; [|done].
  rewrite !filled_string_text_of, getByPath_traverse by done.
  destruct (text_of (traverse primary _)); [done|].
  destruct (truthy fallback) eqn:Hfb.
  - by rewrite getByPath_traverse.
  - destruct (split_cons "." key) as (h & t & ->). simpl.
    by rewrite member_falsy.
Qed.

(** C1, as stated, fails: a walk goes on into a string.  With the primary
    dictionary [{"a": "hello"}] the key [a.0] resolves to ["h"], which the
    rule of the specification, walking mappings only, leaves unresolved.
    The same happens with an array in place of the string, and the empty
    key is unresolved even where the mapping has the empty string as a key. *)
Lemma resolve_walks_into_strings :
  (resolve (JObj {[ "a" := JStr "hello" ]}) empty_object "a.0" = Some "h"
   ∧ resolve_as_specified (JObj {[ "a" := JStr "hello" ]}) empty_object "a.0"
     = None)
  ∧ (resolve (JObj {[ "a" := JArr [JStr "x"] ]}) empty_object "a.0" = Some "x"
     ∧ resolve_as_specified (JObj {[ "a" := JArr [JStr "x"] ]}) empty_object "a.0"
       = None)
  ∧ (resolve (JObj {[ "" := JStr "x" ]}) empty_object "" = None
     ∧ resolve_as_specified (JObj {[ "" := JStr "x" ]}) empty_object ""
       = Some "x").
Proof. repeat split; reflexivity. Qed.

(** ** Translating the page *)

Lemma node_induction (P : node → Prop) :
  (∀ s, P (Text s)) →
  (∀ tag attrs children, Forall P children → P (Elem tag attrs children)) →
  ∀ n, P n.
Proof.
  intros HText HElem. fix IH 1. intros [s|tag attrs children]; [apply HText|].
  apply HElem. induction children as [|c children IHc]; constructor.
  - apply IH.
  - apply IHc.
Qed.

Lemma filled_string_Some v s :
  filled_string v = Some s → v = Some (JStr s) ∧ trim s ≠ "".
Proof.
  destruct v as [[| | |s'| |]|]; simpl; try done.
  rewrite trim_length_has_ink. destruct (has_ink s') eqn:H; [|done].
  intros [= <-]. split; [done|]. by apply has_ink_trim.
Qed.


Section Translating.

Variable parseHTML : string → string → list node.
Variables dict fallbackDict : json.

Lemma resolve_genuine key value :
  resolve dict fallbackDict key = Some value →
  trim value ≠ ""
  ∧ (getByPath dict key = Some (JStr value)
     ∨ (filled_string (getByPath dict key) = None
        ∧ getByPath fallbackDict key = Some (JStr value))).
Proof.
  unfold resolve. destruct (negb (nonempty key)); [done|].
  destruct (filled_string (getByPath dict key)) as [v|] eqn:Hd.
  - intros [= ->]. apply filled_string_Some in Hd as [-> ?]. by eauto.
  - destruct (truthy fallbackDict); [|done].
    intros Hf. apply filled_string_Some in Hf as [-> ?]. by eauto.
Qed.

(** *** The pairs of an attribute-binding marker *)

Lemma bind_pair_binding el pair :
  bind_pair dict fallbackDict el pair =
    match binding dict fallbackDict pair with
    | Some (WAttr attr key value) =>
        (setAttribute attr value el.1, el.2 ++ [WAttr attr key value])
    | _ => el
    end.
Proof.
  unfold bind_pair, binding, pair_parts.
  destruct (split ":" pair) as [|name [|key rest]]; simpl; [done| |].
  - by destruct (nonempty name).
  - destruct (has_ink name) eqn:Hn; simpl.
    + rewrite (has_ink_nonempty _ Hn), (trim_has_ink_nonempty _ Hn). simpl.
      destruct (has_ink key) eqn:Hk; simpl.
      * rewrite (has_ink_nonempty _ Hk), (trim_has_ink_nonempty _ Hk). simpl.
        by destruct (resolve dict fallbackDict (trim key)).
      * destruct (nonempty key) eqn:Hne; simpl.
        -- by rewrite (trim_blank _ Hk).
        -- by rewrite Hne.
    + destruct (nonempty name) eqn:Hne; simpl.
      * rewrite (trim_blank _ Hn). by destruct (nonempty key).
      * rewrite Hne. by destruct (nonempty key).
Qed.

Lemma binding_is_attr pair w :
  binding dict fallbackDict pair = Some w →
  ∃ attr key value,
    w = WAttr attr key value ∧ resolve dict fallbackDict key = Some value.
Proof.
  unfold binding. destruct (pair_parts pair) as [[attr key]|]; [|done].
  simpl. destruct (resolve dict fallbackDict key) as [value|] eqn:Hr; [|done].
  intros [= <-]. by eauto.
Qed.

Lemma fold_bind_pair ps attrs writes :
  fold_left (bind_pair dict fallbackDict) ps (attrs, writes)
  = (perform (omap (binding dict fallbackDict) ps) attrs,
     writes ++ omap (binding dict fallbackDict) ps).
Proof.
  revert attrs writes. induction ps as [|pair ps IH]; intros attrs writes.
  - simpl. by rewrite app_nil_r.
  - cbn [fold_left]. rewrite bind_pair_binding. cbn [omap list_omap].
    destruct (binding dict fallbackDict pair) as [w|] eqn:Hb; [|apply IH].
    apply binding_is_attr in Hb as (attr & key & value & -> & _).
    rewrite IH. simpl. by rewrite <- app_assoc.
Qed.

Lemma bind_attrs_bindings attrs :
  bind_attrs dict fallbackDict attrs
  = (perform (bindings dict fallbackDict (default "" (attrs !! "data-i18n-attr")))
       attrs,
     bindings dict fallbackDict (default "" (attrs !! "data-i18n-attr"))).
Proof. unfold bind_attrs. by rewrite fold_bind_pair. Qed.

Lemma bindings_resolved spec w :
  w ∈ bindings dict fallbackDict spec →
  ∃ attr key value,
    w = WAttr attr key value ∧ resolve dict fallbackDict key = Some value.
Proof.
  unfold bindings. rewrite list_elem_of_omap.
  intros (pair & _ & Hb). by apply binding_is_attr in Hb.
Qed.




End Translating.

Section Passes.

Variable parseHTML : string → string → list node.
Variables dict fallbackDict : json.

Lemma Forall_visited (P : dom_write → Prop) (pass : node → node * list dom_write)
    (children : list node) :
  Forall (λ n, Forall P (pass n).2) children →
  Forall P (concat (map snd (map pass children))).
Proof.
  induction 1 as [|c children Hc _ IH]; simpl; [constructor|].
  apply Forall_app. by split.
Qed.

Lemma text_pass_genuine n :
  Forall (genuine dict fallbackDict) (text_pass dict fallbackDict n).2.
Proof.
  induction n as [s|tag attrs children IH] using node_induction; simpl.
  - constructor.
  - apply Forall_visited in IH.
    destruct (attrs !! "data-i18n") as [key|]; [|done].
    destruct (resolve dict fallbackDict key) as [value|] eqn:Hr; [|done].
    simpl. constructor; [|done]. by apply resolve_genuine.
Qed.

Lemma html_pass_genuine n :
  Forall (genuine dict fallbackDict) (html_pass parseHTML dict fallbackDict n).2.
Proof.
  induction n as [s|tag attrs children IH] using node_induction; simpl.
  - constructor.
  - apply Forall_visited in IH.
    destruct (attrs !! "data-i18n-html") as [key|]; [|done].
    destruct (resolve dict fallbackDict key) as [value|] eqn:Hr; [|done].
    simpl. constructor; [|done]. by apply resolve_genuine.
Qed.

Lemma bindings_genuine spec :
  Forall (genuine dict fallbackDict) (bindings dict fallbackDict spec).
Proof.
  apply Forall_forall. intros w Hw.
  apply bindings_resolved in Hw as (attr & key & value & -> & Hr).
  by apply resolve_genuine.
Qed.

Lemma attr_pass_genuine n :
  Forall (genuine dict fallbackDict) (attr_pass dict fallbackDict n).2.
Proof.
  induction n as [s|tag attrs children IH] using node_induction;
    cbn [attr_pass snd].
  - constructor.
  - apply Forall_visited in IH. rewrite bind_attrs_bindings. simpl.
    apply Forall_app. split; [apply bindings_genuine|done].
Qed.

Lemma over_body_genuine pass d :
  (∀ n, Forall (genuine dict fallbackDict) (pass n).2) →
  Forall (genuine dict fallbackDict) (over_body pass d).2.
Proof.
  intros Hpass. unfold over_body. simpl. apply Forall_visited.
  apply Forall_forall. intros n _. apply Hpass.
Qed.

Lemma and_then_genuine f g d :
  (∀ d', Forall (genuine dict fallbackDict) (f d').2) →
  (∀ d', Forall (genuine dict fallbackDict) (g d').2) →
  Forall (genuine dict fallbackDict) (and_then f g d).2.
Proof. intros Hf Hg. unfold and_then. simpl. apply Forall_app. by split. Qed.

(** C9.  Every value that [applyTranslations] writes, to the title, to the
    description, as text, as inner HTML or as an attribute, is a string that
    trimming does not empty, and it is the value that the primary dictionary
    holds at the binding's key or, when the primary holds no such string
    there, the value the fallback dictionary holds at that key. *)
Theorem writes_are_genuine (d : document) :
  Forall (genuine dict fallbackDict)
    (applyTranslations parseHTML dict fallbackDict d).2.
Proof.
  unfold applyTranslations.
  repeat (apply and_then_genuine; intros);
    try (apply over_body_genuine; intros).
  - unfold set_title.
    destruct (resolve dict fallbackDict "meta.title") eqn:Hr; simpl; [|done].
    constructor; [|done]. by apply resolve_genuine.
  - unfold set_description.
    destruct (resolve dict fallbackDict "meta.description") eqn:Hr; [|done].
    destruct (doc_description _); simpl; [|done].
    constructor; [|done]. by apply resolve_genuine.
  - apply text_pass_genuine.
  - apply html_pass_genuine.
  - apply attr_pass_genuine.
Qed.

(** *** Nodes in which nothing resolves *)

Lemma unvisited (children : list node) :
  map fst (map (λ n : node, (n, @nil dom_write)) children) = children
  ∧ concat (map snd (map (λ n : node, (n, @nil dom_write)) children)) = [].
Proof. induction children as [|c children [IH1 IH2]]; simpl; [done|]. by rewrite IH1, IH2. Qed.

Lemma visited_quiet (pass : node → node * list dom_write) children :
  Forall (λ n, quiet dict fallbackDict n = true → pass n = (n, [])) children →
  forallb (quiet dict fallbackDict) children = true →
  map pass children = map (λ n, (n, [])) children.
Proof.
  induction 1 as [|c children Hc _ IH]; simpl; [done|].
  intros [Hq Hqs]%andb_prop. by rewrite Hc, IH.
Qed.

Lemma unresolved_marker (marker : option string) :
  unresolved dict fallbackDict marker = true →
  match marker with
  | Some key => resolve dict fallbackDict key = None
  | None => True
  end.
Proof.
  destruct marker as [key|]; simpl; [|done].
  by destruct (resolve dict fallbackDict key).
Qed.

Lemma text_pass_children tag attrs children :
  unresolved dict fallbackDict (attrs !! "data-i18n") = true →
  text_pass dict fallbackDict (Elem tag attrs children)
  = (Elem tag attrs (map fst (map (text_pass dict fallbackDict) children)),
     concat (map snd (map (text_pass dict fallbackDict) children))).
Proof.
  intros H%unresolved_marker. simpl.
  destruct (attrs !! "data-i18n"); [|done]. by rewrite H.
Qed.

Lemma html_pass_children tag attrs children :
  unresolved dict fallbackDict (attrs !! "data-i18n-html") = true →
  html_pass parseHTML dict fallbackDict (Elem tag attrs children)
  = (Elem tag attrs
       (map fst (map (html_pass parseHTML dict fallbackDict) children)),
     concat (map snd (map (html_pass parseHTML dict fallbackDict) children))).
Proof.
  intros H%unresolved_marker. simpl.
  destruct (attrs !! "data-i18n-html"); [|done]. by rewrite H.
Qed.

Lemma quiet_elem tag attrs children :
  quiet dict fallbackDict (Elem tag attrs children) = true →
  unresolved dict fallbackDict (attrs !! "data-i18n") = true
  ∧ unresolved dict fallbackDict (attrs !! "data-i18n-html") = true
  ∧ bindings dict fallbackDict (default "" (attrs !! "data-i18n-attr")) = []
  ∧ forallb (quiet dict fallbackDict) children = true.
Proof.
  simpl. intros [[[H1 H2]%andb_prop H3]%andb_prop H4]%andb_prop.
  repeat split; try done.
  by destruct (bindings _ _ _).
Qed.

Lemma text_pass_quiet n :
  quiet dict fallbackDict n = true → text_pass dict fallbackDict n = (n, []).
Proof.
  induction n as [s|tag attrs children IH] using node_induction; [done|].
  intros (H1 & _ & _ & H4)%quiet_elem.
  rewrite text_pass_children, (visited_quiet _ _ IH) by done.
  by destruct (unvisited children) as [-> ->].
Qed.

Lemma html_pass_quiet n :
  quiet dict fallbackDict n = true →
  html_pass parseHTML dict fallbackDict n = (n, []).
Proof.
  induction n as [s|tag attrs children IH] using node_induction; [done|].
  intros (_ & H2 & _ & H4)%quiet_elem.
  rewrite html_pass_children, (visited_quiet _ _ IH) by done.
  by destruct (unvisited children) as [-> ->].
Qed.

Lemma attr_pass_quiet n :
  quiet dict fallbackDict n = true → attr_pass dict fallbackDict n = (n, []).
Proof.
  induction n as [s|tag attrs children IH] using node_induction; [done|].
  intros (_ & _ & H3 & H4)%quiet_elem.
  cbn [attr_pass]. rewrite bind_attrs_bindings, H3, (visited_quiet _ _ IH) by done.
  by destruct (unvisited children) as [-> ->].
Qed.




End Passes.

Section Elements.

Variable parseHTML : string → string → list node.
Variables dict fallbackDict : json.



End Elements.

(** ** Running the script *)

(** Membership in a list that is written out. *)
Ltac listed :=
  repeat first [apply list_elem_of_here | apply list_elem_of_further].

Lemma emits_nil w : emits [] w = w.
Proof. destruct w. unfold emits. simpl. by rewrite app_nil_r. Qed.

Lemma emits_emits evs1 evs2 w : emits evs2 (emits evs1 w) = emits (evs1 ++ evs2) w.
Proof. unfold emits. simpl. by rewrite app_assoc. Qed.

Lemma bind_run {A B : Type} (m : M A) (f : A → M B) w a w' :
  m w = (inr a, w') → (m ≫= f) w = f a w'.
Proof. intros H. unfold mbind, M_bind. by rewrite H. Qed.

Lemma chatter_mono files files' ev :
  (∀ file, file ∈ files → file ∈ files') → chatter files ev → chatter files' ev.
Proof.
  intros Hsub. destruct ev as [| url | |]; simpl; try done.
  intros (b & file & Hin & ->). exists b, file. split; [|done]. by apply Hsub.
Qed.

Lemma fetchJson_run e url w :
  fetchJson e url w =
    (match fetched e url with inl x => inl x | inr doc => inr doc end,
     emits [Fetch url] w).
Proof.
  unfold fetchJson, mbind, M_bind, emit. by destruct (fetched e url).
Qed.


Lemma chatter_more files files' evs :
  (∀ file, file ∈ files → file ∈ files') →
  Forall (chatter files) evs → Forall (chatter files') evs.
Proof.
  intros Hsub. induction 1 as [|ev evs Hev _ IH]; constructor; [|done].
  by apply (chatter_mono files).
Qed.

Lemma chatter_console files lvl message detail :
  chatter files (Console lvl message detail).
Proof. done. Qed.

Lemma chatter_fetch files b file :
  file ∈ files → chatter files (Fetch (b +:+ file)).
Proof. intros Hin. simpl. by eauto. Qed.

Lemma load_dict_run e lang bs w :
  ∃ evs,
    load_dict e lang bs w
    = (inr (first_fetched e (lang +:+ ".json") bs), emits evs w)
    ∧ Forall (chatter [lang +:+ ".json"]) evs.
Proof.
  revert w. induction bs as [|b rest IH]; intros w.
  - exists []. by rewrite emits_nil.
  - cbn [load_dict first_fetched]. unfold mbind, M_bind, try_catch.
    rewrite fetchJson_run. destruct (fetched e (b +:+ lang +:+ ".json")) as [x|doc];
      unfold console, emit, mret, M_ret.
    + destruct (IH (emits [Console LWarn "[i18n] fetch failed" (b +:+ lang +:+ ".json")]
         (emits [Fetch (b +:+ lang +:+ ".json")] w))) as (evs & -> & Hevs).
      eexists. rewrite !emits_emits. split; [done|].
      repeat constructor; [apply chatter_fetch; listed|done].
    + eexists. rewrite !emits_emits. split; [done|].
      repeat constructor. apply chatter_fetch; listed.
Qed.

Lemma load_fallback_run e bs w :
  ∃ evs,
    load_fallback e bs w
    = (inr (first_fetched e (DEFAULT_LANG +:+ ".json") bs), emits evs w)
    ∧ Forall (chatter [DEFAULT_LANG +:+ ".json"]) evs.
Proof.
  revert w. induction bs as [|b rest IH]; intros w.
  - exists []. by rewrite emits_nil.
  - cbn [load_fallback first_fetched]. unfold mbind, M_bind, try_catch.
    rewrite fetchJson_run.
    destruct (fetched e (b +:+ DEFAULT_LANG +:+ ".json")) as [x|doc];
      unfold console, emit, mret, M_ret.
    + edestruct IH as (evs & -> & Hevs).
      eexists. rewrite !emits_emits. split; [done|].
      repeat constructor; [apply chatter_fetch; listed|done].
    + eexists. rewrite !emits_emits. split; [done|].
      repeat constructor. apply chatter_fetch; listed.
Qed.

Section Runs.
Variable parseHTML : string → string → list node.

Lemma apply_default_run api e bs w :
  ∃ evs1 evs2,
    apply_default parseHTML e bs w
    = (inr (match default_only e bs with DefaultOnly _ => true | _ => false end),
       emits evs2 (conclude parseHTML api e (default_only e bs) (emits evs1 w)))
    ∧ Forall (chatter [DEFAULT_LANG +:+ ".json"]) evs1
    ∧ Forall (chatter [DEFAULT_LANG +:+ ".json"]) evs2.
Proof.
  unfold default_only.
  revert w. induction bs as [|b rest IH]; intros w.
  - exists [], []. by rewrite !emits_nil.
  - cbn [apply_default first_fetched]. unfold mbind, M_bind, try_catch.
    rewrite fetchJson_run.
    destruct (fetched e (b +:+ DEFAULT_LANG +:+ ".json")) as [x|doc];
      unfold console, emit, mret, M_ret.
    + edestruct IH as (evs1 & evs2 & -> & Hevs1 & Hevs2).
      eexists _, evs2. rewrite !emits_emits. split; [done|]. split; [|done].
      repeat constructor; [apply chatter_fetch; listed|done].
    + exists [Fetch (b +:+ DEFAULT_LANG +:+ ".json")],
        [Console LDebug "[i18n] applied default translations from"
           (b +:+ DEFAULT_LANG +:+ ".json")].
      split; [done|]. split; repeat constructor. apply chatter_fetch; listed.
Qed.

Lemma prelude_run e requested w (k : M unit) :
  (console LLog "[i18n] setLang()" requested;;
   try_catch (localStorage_setItem e STORAGE_KEY (normalise requested)) (λ _, mret ());;
   callUpdateLangUi (normalise requested);; k) w
  = k (prelude e requested w).
Proof.
  unfold mbind, M_bind, try_catch, console, emit, localStorage_setItem,
    callUpdateLangUi, prelude, emits, mret, M_ret.
  cbn [storage page lastDict lastFallback window_i18n events].
  by destruct (storage_write_fails e).
Qed.

Lemma recover_run e lang w :
  ∃ evs1 evs2,
    (console LError "[i18n] failed to load any language file for" lang;;
     if negb (String.eqb lang DEFAULT_LANG) then
       fallbackLoaded ← apply_default parseHTML e bases;
       if negb fallbackLoaded
       then console LWarn "[i18n] could not load any default translations" ""
       else mret ()
     else mret ()) w
    = (inr (),
       emits evs2 (conclude parseHTML true e (recovery e lang bases) (emits evs1 w)))
    ∧ Forall (chatter [DEFAULT_LANG +:+ ".json"]) evs1
    ∧ Forall (chatter [DEFAULT_LANG +:+ ".json"]) evs2
    ∧ Console LError "[i18n] failed to load any language file for" lang ∈ evs1.
Proof.
  unfold recovery, mbind at 1, M_bind at 1, console at 1, emit.
  destruct (String.eqb lang DEFAULT_LANG); cbn [negb].
  - exists [Console LError "[i18n] failed to load any language file for" lang], [].
    cbn [conclude]. rewrite emits_nil. split; [reflexivity|].
    split; [by repeat constructor|]. split; [done|]. set_solver.
  - unfold mbind, M_bind.
    edestruct (apply_default_run true) as (evs1 & evs2 & -> & H1 & H2).
    unfold default_only.
    destruct (first_fetched e (DEFAULT_LANG +:+ ".json") bases) as [d|];
      cbn [negb conclude]; unfold console, emit, mret, M_ret.
    + eexists _, evs2. rewrite !emits_emits. split; [reflexivity|].
      split; [|split; [done|set_solver]].
      apply Forall_app; split; [by repeat constructor|done].
    + exists ([Console LError "[i18n] failed to load any language file for" lang]
              ++ evs1 ++ evs2
              ++ [Console LWarn "[i18n] could not load any default translations" ""]), [].
      rewrite emits_nil, !emits_emits. split; [reflexivity|].
      split; [|split; [done|set_solver]].
      repeat (apply Forall_app; split); try done; by repeat constructor.
Qed.

Lemma finish_run e lang dict fallbackDict w :
  (callApplyTranslations parseHTML dict fallbackDict;;
   remember dict fallbackDict;;
   try_catch (expose e) (λ _, mret ());;
   console LDebug "[i18n] translations applied for" lang) w
  = (inr (),
     emits [Console LDebug "[i18n] translations applied for" lang]
       (conclude parseHTML true e (Loaded dict fallbackDict) w)).
Proof.
  unfold conclude, mbind, M_bind, try_catch, callApplyTranslations, remember,
    expose, console, emit, mret, M_ret.
  cbn [fst snd storage page lastDict lastFallback window_i18n events].
  by destruct (window_sealed e).
Qed.

Lemma fallback_run e lang w :
  ∃ fallbackDict evs,
    (if negb (String.eqb lang DEFAULT_LANG) then
       fallbackDict ← load_fallback e bases;
       (if missing fallbackDict
        then console LWarn "[i18n] could not load fallback language" ""
        else mret ());;
       mret fallbackDict
     else mret None) w
    = (inr fallbackDict, emits evs w)
    ∧ Forall (chatter [DEFAULT_LANG +:+ ".json"]) evs
    ∧ (if String.eqb lang DEFAULT_LANG then empty_object
       else or_empty_opt (first_fetched e (DEFAULT_LANG +:+ ".json") bases))
      = or_empty_opt fallbackDict.
Proof.
  destruct (String.eqb lang DEFAULT_LANG); cbn [negb].
  - exists None, []. by rewrite emits_nil.
  - destruct (load_fallback_run e bases w) as (evs & Hrun & Hevs).
    rewrite (bind_run _ _ _ _ _ Hrun).
    destruct (missing (first_fetched e (DEFAULT_LANG +:+ ".json") bases)).
    + eexists _, _. split; [|split; [|reflexivity]].
      * unfold mbind, M_bind, console, emit, mret, M_ret.
        by rewrite emits_emits.
      * apply Forall_app. split; [done|by repeat constructor].
    + eexists _, _. split; [|split; [|reflexivity]]; [|done].
      reflexivity.
Qed.

Lemma setLang_run e requested w :
  ∃ evs1 evs2,
    setLang parseHTML e requested w
    = (inr (),
       emits evs2
         (conclude parseHTML true e (outcome_of e (normalise requested))
            (emits evs1 (prelude e requested w))))
    ∧ Forall (chatter [normalise requested +:+ ".json"; DEFAULT_LANG +:+ ".json"]) evs1
    ∧ Forall (chatter [normalise requested +:+ ".json"; DEFAULT_LANG +:+ ".json"]) evs2
    ∧ (match outcome_of e (normalise requested) with
       | Loaded _ _ => True
       | _ => Console LError "[i18n] failed to load any language file for"
                (normalise requested) ∈ evs1
       end).
Proof.
  unfold setLang. rewrite prelude_run.
  set (lang := normalise requested). set (w1 := prelude e requested w).
  unfold mbind at 1, M_bind at 1.
  destruct (load_dict_run e lang bases w1) as (evsA & -> & HA).
  assert (∀ evs, Forall (chatter [lang +:+ ".json"]) evs →
    Forall (chatter [lang +:+ ".json"; DEFAULT_LANG +:+ ".json"]) evs) as Hlang.
  { intros evs. apply chatter_more. intros file ->%list_elem_of_singleton. listed. }
  assert (∀ evs, Forall (chatter [DEFAULT_LANG +:+ ".json"]) evs →
    Forall (chatter [lang +:+ ".json"; DEFAULT_LANG +:+ ".json"]) evs) as Hdef.
  { intros evs. apply chatter_more. intros file ->%list_elem_of_singleton. listed. }
  assert (∃ evs1 evs2,
    (console LError "[i18n] failed to load any language file for" lang;;
     if negb (String.eqb lang DEFAULT_LANG) then
       fallbackLoaded ← apply_default parseHTML e bases;
       if negb fallbackLoaded
       then console LWarn "[i18n] could not load any default translations" ""
       else mret ()
     else mret ()) (emits evsA w1)
    = (inr (),
       emits evs2 (conclude parseHTML true e (recovery e lang bases) (emits evs1 w1)))
    ∧ Forall (chatter [lang +:+ ".json"; DEFAULT_LANG +:+ ".json"]) evs1
    ∧ Forall (chatter [lang +:+ ".json"; DEFAULT_LANG +:+ ".json"]) evs2
    ∧ match recovery e lang bases with
      | Loaded _ _ => True
      | _ => Console LError "[i18n] failed to load any language file for" lang ∈ evs1
      end) as Hrecover.
  { destruct (recover_run e lang (emits evsA w1)) as (evs1 & evs2 & -> & H1 & H2 & H3).
    exists (evsA ++ evs1), evs2. rewrite emits_emits. split; [reflexivity|].
    split; [apply Forall_app; by auto|]. split; [by auto|].
    destruct (recovery e lang bases); set_solver. }
  unfold outcome_of.
  destruct (first_fetched e (lang +:+ ".json") bases) as [dict|] eqn:Hdict;
    cbn [missing]; [|exact Hrecover].
  destruct (truthy dict) eqn:Htruthy; cbn [negb]; [|exact Hrecover].
  clear Hrecover.
  assert (or_empty_opt (Some dict) = dict) as ->.
  { unfold or_empty_opt, or_empty. by rewrite Htruthy. }
  destruct (fallback_run e lang (emits evsA w1)) as (fb & evsB & Hrun & HB & ->).
  rewrite (bind_run _ _ _ _ _ Hrun), finish_run, !emits_emits.
  eexists _, _. split; [reflexivity|]. split; [|split; [|done]].
  - apply Forall_app. split; by auto.
  - by repeat constructor.
Qed.

Lemma try_catch_ok {A : Type} (m : M A) h w a w' :
  m w = (inr a, w') → try_catch m h w = (inr a, w').
Proof. intros H. unfold try_catch. by rewrite H. Qed.

Lemma try_catch_throw {A : Type} (m : M A) h w x w' :
  m w = (inl x, w') → try_catch m h w = h x w'.
Proof. intros H. unfold try_catch. by rewrite H. Qed.

Lemma bind_throw {A B : Type} (m : M A) (f : A → M B) w x w' :
  m w = (inl x, w') → (m ≫= f) w = (inl x, w').
Proof. intros H. unfold mbind, M_bind. by rewrite H. Qed.

Lemma fallback_under_run base e lang w :
  ∃ fallbackDict evs,
    (if negb (String.eqb lang DEFAULT_LANG) then
       try_catch
         (fallbackDict ← fetchJson e (base +:+ DEFAULT_LANG +:+ ".json");
          console LDebug "[i18n] fetched fallback"
            (base +:+ DEFAULT_LANG +:+ ".json");;
          mret (Some fallbackDict))
         (λ _, console LWarn "[i18n] could not load fallback language" "";;
               mret None)
     else mret None) w
    = (inr fallbackDict, emits evs w)
    ∧ Forall (chatter [DEFAULT_LANG +:+ ".json"]) evs
    ∧ (if String.eqb lang DEFAULT_LANG then empty_object
       else or_empty_opt (first_fetched e (DEFAULT_LANG +:+ ".json") [base]))
      = or_empty_opt fallbackDict.
Proof.
  destruct (String.eqb lang DEFAULT_LANG); cbn [negb first_fetched].
  - exists None, []. by rewrite emits_nil.
  - unfold try_catch, mbind, M_bind. rewrite fetchJson_run.
    destruct (fetched e (base +:+ DEFAULT_LANG +:+ ".json")) as [x|doc];
      unfold console, emit, mret, M_ret; rewrite emits_emits;
      eexists _, _; (split; [reflexivity|]); (split; [|reflexivity]);
      repeat constructor; apply chatter_fetch; listed.
Qed.

Lemma recover_under_run api base e lang message w :
  ∃ evs1 evs2,
    (console LError message lang;;
     if negb (String.eqb lang DEFAULT_LANG) then
       try_catch
         (dict ← fetchJson e (base +:+ DEFAULT_LANG +:+ ".json");
          callApplyTranslations parseHTML (or_empty dict) empty_object)
         (λ _, console LWarn "[i18n] could not load default translations" "")
     else mret ()) w
    = (inr (),
       emits evs2
         (conclude parseHTML api e (recovery e lang [base]) (emits evs1 w)))
    ∧ Forall (chatter [DEFAULT_LANG +:+ ".json"]) evs1
    ∧ Forall (chatter [DEFAULT_LANG +:+ ".json"]) evs2
    ∧ Console LError message lang ∈ evs1.
Proof.
  unfold recovery, default_only, mbind at 1, M_bind at 1, console at 1, emit.
  destruct (String.eqb lang DEFAULT_LANG); cbn [negb first_fetched].
  - exists [Console LError message lang], [].
    cbn [conclude]. rewrite emits_nil. split; [reflexivity|].
    split; [by repeat constructor|]. split; [done|]. set_solver.
  - unfold try_catch, mbind, M_bind. rewrite fetchJson_run.
    destruct (fetched e (base +:+ DEFAULT_LANG +:+ ".json")) as [x|doc];
      cbn [conclude]; unfold console, emit, mret, M_ret.
    + eexists _, []. rewrite emits_nil, !emits_emits. split; [reflexivity|].
      split; [|split; [done|set_solver]].
      repeat constructor. apply chatter_fetch; listed.
    + eexists _, []. rewrite emits_nil, !emits_emits. split; [reflexivity|].
      split; [|split; [done|set_solver]].
      repeat constructor. apply chatter_fetch; listed.
Qed.

Lemma finish_plain_run lang dict fallbackDict e w :
  (callApplyTranslations parseHTML dict fallbackDict;;
   console LDebug "[i18n] translations applied for" lang) w
  = (inr (),
     emits [Console LDebug "[i18n] translations applied for" lang]
       (conclude parseHTML false e (Loaded dict fallbackDict) w)).
Proof. reflexivity. Qed.

Lemma FixedPath_setLang_run e requested w :
  ∃ evs1 evs2,
    FixedPath.setLang parseHTML e requested w
    = (inr (),
       emits evs2
         (conclude parseHTML false e
            (outcome_under "i18n/" e (normalise requested))
            (emits evs1 (prelude e requested w))))
    ∧ Forall (chatter [normalise requested +:+ ".json"; DEFAULT_LANG +:+ ".json"]) evs1
    ∧ Forall (chatter [normalise requested +:+ ".json"; DEFAULT_LANG +:+ ".json"]) evs2
    ∧ (match outcome_under "i18n/" e (normalise requested) with
       | Loaded _ _ => True
       | _ => Console LError "[i18n] failed to load" (normalise requested) ∈ evs1
       end).
Proof.
  unfold FixedPath.setLang. rewrite prelude_run.
  set (lang := normalise requested). set (w1 := prelude e requested w).
  assert (∀ evs, Forall (chatter [DEFAULT_LANG +:+ ".json"]) evs →
    Forall (chatter [lang +:+ ".json"; DEFAULT_LANG +:+ ".json"]) evs) as Hdef.
  { intros evs. apply chatter_more. intros file ->%list_elem_of_singleton. listed. }
  unfold outcome_under.
  destruct (fetched e ("i18n/" +:+ lang +:+ ".json")) as [x|dict] eqn:Hdict.
  - erewrite try_catch_throw;
      [|erewrite bind_throw; [reflexivity|]; rewrite fetchJson_run, Hdict; reflexivity].
    destruct (recover_under_run false "i18n/" e lang "[i18n] failed to load"
                (emits [Fetch ("i18n/" +:+ lang +:+ ".json")] w1))
      as (evs1 & evs2 & -> & H1 & H2 & H3).
    rewrite emits_emits. eexists _, _. split; [reflexivity|].
    split; [|split; [by auto|]].
    + constructor; [apply (chatter_fetch _ "i18n/"); listed|by auto].
    + destruct (recovery e lang ["i18n/"]); set_solver.
  - destruct (fallback_under_run "i18n/" e lang
                (emits [Console LDebug "[i18n] fetched" ("i18n/" +:+ lang +:+ ".json")]
                   (emits [Fetch ("i18n/" +:+ lang +:+ ".json")] w1)))
      as (fb & evsB & Hrun & HB & ->).
    erewrite try_catch_ok.
    2:{ erewrite bind_run; [|rewrite fetchJson_run, Hdict; reflexivity].
        erewrite bind_run; [|reflexivity].
        erewrite bind_run; [|exact Hrun].
        apply (finish_plain_run _ _ _ e). }
    rewrite !emits_emits. eexists _, _. split; [reflexivity|].
    split; [|split; [by repeat constructor|done]].
    constructor; [apply (chatter_fetch _ "i18n/"); listed|].
    constructor; [done|by auto].
Qed.


Lemma DerivedPath_setLang_run e requested w :
  ∃ evs1 evs2,
    DerivedPath.setLang parseHTML e requested w
    = (inr (),
       emits evs2
         (conclude parseHTML true e
            (outcome_under (DerivedPath.getI18nBasePath e) e (normalise requested))
            (emits evs1 (prelude e requested w))))
    ∧ Forall (chatter [normalise requested +:+ ".json"; DEFAULT_LANG +:+ ".json"]) evs1
    ∧ Forall (chatter [normalise requested +:+ ".json"; DEFAULT_LANG +:+ ".json"]) evs2
    ∧ (match outcome_under (DerivedPath.getI18nBasePath e) e (normalise requested) with
       | Loaded _ _ => True
       | _ => Console LError "[i18n] failed to load" (normalise requested) ∈ evs1
       end).
Proof.
  unfold DerivedPath.setLang. rewrite prelude_run.
  set (lang := normalise requested). set (w1 := prelude e requested w).
  set (base := DerivedPath.getI18nBasePath e). cbv zeta.
  assert (∀ evs, Forall (chatter [DEFAULT_LANG +:+ ".json"]) evs →
    Forall (chatter [lang +:+ ".json"; DEFAULT_LANG +:+ ".json"]) evs) as Hdef.
  { intros evs. apply chatter_more. intros file ->%list_elem_of_singleton. listed. }
  unfold outcome_under.
  destruct (fetched e (base +:+ lang +:+ ".json")) as [x|dict] eqn:Hdict.
  - erewrite try_catch_throw;
      [|erewrite bind_throw; [reflexivity|]; rewrite fetchJson_run, Hdict; reflexivity].
    destruct (recover_under_run true base e lang "[i18n] failed to load"
                (emits [Fetch (base +:+ lang +:+ ".json")] w1))
      as (evs1 & evs2 & -> & H1 & H2 & H3).
    rewrite emits_emits. eexists _, _. split; [reflexivity|].
    split; [|split; [by auto|]].
    + constructor; [apply chatter_fetch; listed|by auto].
    + destruct (recovery e lang [base]); set_solver.
  - destruct (fallback_under_run base e lang
                (emits [Console LDebug "[i18n] fetched" (base +:+ lang +:+ ".json")]
                   (emits [Fetch (base +:+ lang +:+ ".json")] w1)))
      as (fb & evsB & Hrun & HB & ->).
    erewrite try_catch_ok.
    2:{ erewrite bind_run; [|rewrite fetchJson_run, Hdict; reflexivity].
        erewrite bind_run; [|reflexivity].
        erewrite bind_run; [|exact Hrun].
        apply finish_run. }
    rewrite !emits_emits. eexists _, _. split; [reflexivity|].
    split; [|split; [by repeat constructor|done]].
    constructor; [apply chatter_fetch; listed|].
    constructor; [done|by auto].
Qed.

End Runs.

(** ** Switching the language *)

Lemma applied_app evs1 evs2 : applied (evs1 ++ evs2) = applied evs1 ++ applied evs2.
Proof. apply omap_app. Qed.

Lemma chatter_applied files evs : Forall (chatter files) evs → applied evs = [].
Proof.
  induction 1 as [|ev evs Hev _ IH]; [done|].
  by destruct ev.
Qed.

Lemma applied_dom ws : applied (map Dom ws) = [].
Proof. by induction ws. Qed.

Lemma applied_apply d f ws : applied (Apply d f :: map Dom ws) = [(d, f)].
Proof. unfold applied. cbn [omap list_omap]. f_equal. apply applied_dom. Qed.

Lemma normalise_supported requested :
  normalise requested = "hu" ∨ normalise requested = "it".
Proof.
  unfold normalise, SUPPORTED_has. case_bool_decide as H; [|by left].
  unfold SUPPORTED in H. set_solver.
Qed.

Lemma normalise_unsupported requested :
  SUPPORTED_has requested = false → normalise requested = DEFAULT_LANG.
Proof. intros H. unfold normalise. by rewrite H. Qed.


Section Switching.
Variable parseHTML : string → string → list node.

Lemma applyTranslations_lang dict fallbackDict d :
  doc_lang (applyTranslations parseHTML dict fallbackDict d).1 = doc_lang d.
Proof.
  unfold applyTranslations, and_then, over_body, set_title, set_description.
  destruct (resolve dict fallbackDict "meta.title");
    destruct (resolve dict fallbackDict "meta.description"); simpl;
    try destruct (doc_description d); reflexivity.
Qed.

Lemma conclude_applied api e o w :
  applied (events (conclude parseHTML api e o w)) = applied (events w) ++ calls o.
Proof.
  destruct o as [|d|d f]; cbn [conclude calls].
  - by rewrite app_nil_r.
  - unfold callApplyTranslations. cbn [snd events].
    by rewrite applied_app, applied_apply.
  - assert (applied (events (callApplyTranslations parseHTML d f w).2)
            = applied (events w) ++ [(d, f)]) as Happly.
    { unfold callApplyTranslations. cbn [snd events].
      by rewrite applied_app, applied_apply. }
    destruct api; [|done].
    unfold try_catch, expose, remember, mret, M_ret. cbn [snd fst].
    by destruct (window_sealed e).
Qed.

Lemma conclude_lang api e o w :
  doc_lang (page (conclude parseHTML api e o w)) = doc_lang (page w).
Proof.
  destruct o as [|d|d f]; cbn [conclude]; [done| |].
  - unfold callApplyTranslations. cbn [snd page]. apply applyTranslations_lang.
  - destruct api; unfold try_catch, expose, remember, mret, M_ret,
      callApplyTranslations; cbn [snd fst page];
      try destruct (window_sealed e); cbn [snd page];
      apply applyTranslations_lang.
Qed.

Lemma conclude_storage api e o w :
  storage (conclude parseHTML api e o w) = storage w.
Proof.
  destruct o as [|d|d f]; cbn [conclude]; [done|done|].
  destruct api; unfold try_catch, expose, remember, mret, M_ret,
    callApplyTranslations; cbn [snd fst storage];
    try destruct (window_sealed e); reflexivity.
Qed.

(** What is left once a run has been brought to the form of the run
    lemmas: the calls made, the language shown and the preference kept. *)
Lemma settled_applied api e o evs1 evs2 requested w files :
  Forall (chatter files) evs1 → Forall (chatter files) evs2 →
  applied (events (emits evs2
    (conclude parseHTML api e o (emits evs1 (prelude e requested w)))))
  = applied (events w) ++ calls o.
Proof.
  intros H1 H2. cbn [emits events]. rewrite applied_app, conclude_applied.
  cbn [emits events prelude]. rewrite !applied_app.
  rewrite (chatter_applied _ _ H1), (chatter_applied _ _ H2).
  cbn [applied omap list_omap]. by rewrite !app_nil_r.
Qed.

Lemma settled_lang api e o evs1 evs2 requested w :
  doc_lang (page (emits evs2
    (conclude parseHTML api e o (emits evs1 (prelude e requested w)))))
  = normalise requested.
Proof.
  cbn [emits page]. rewrite conclude_lang. cbn [emits page prelude].
  unfold updateLangUi. by destruct (normalise_supported requested) as [-> | ->].
Qed.

Lemma settled_storage api e o evs1 evs2 requested w :
  storage (emits evs2
    (conclude parseHTML api e o (emits evs1 (prelude e requested w))))
  = if storage_write_fails e then storage w
    else <[STORAGE_KEY := normalise requested]> (storage w).
Proof. cbn [emits storage]. by rewrite conclude_storage. Qed.





Lemma outcome_of_failed e lang :
  first_fetched e (lang +:+ ".json") bases = None →
  outcome_of e lang = recovery e lang bases.
Proof. intros H. unfold outcome_of. by rewrite H. Qed.





Lemma requested_urls_app evs1 evs2 :
  requested_urls (evs1 ++ evs2) = requested_urls evs1 ++ requested_urls evs2.
Proof. apply omap_app. Qed.

Lemma requested_urls_dom ws : requested_urls (map Dom ws) = [].
Proof. by induction ws. Qed.

Lemma chatter_urls files evs :
  Forall (chatter files) evs →
  Forall (λ url, ∃ b file, file ∈ files ∧ url = b +:+ file) (requested_urls evs).
Proof.
  induction 1 as [|ev evs Hev _ IH]; [constructor|].
  destruct ev; try done. by constructor.
Qed.

Lemma conclude_events api e o w :
  ∃ extra,
    events (conclude parseHTML api e o w) = events w ++ extra
    ∧ requested_urls extra = [] ∧ applied extra = calls o.
Proof.
  destruct o as [|d|d f]; cbn [conclude calls].
  - exists []. by rewrite app_nil_r.
  - exists (Apply d empty_object
              :: map Dom (applyTranslations parseHTML d empty_object (page w)).2).
    split; [reflexivity|].
    split; [apply requested_urls_dom|apply applied_apply].
  - exists (Apply d f :: map Dom (applyTranslations parseHTML d f (page w)).2).
    split; [|split; [apply requested_urls_dom|apply applied_apply]].
    destruct api; [|reflexivity].
    unfold try_catch, expose, remember, mret, M_ret, callApplyTranslations.
    cbn [snd fst events]. by destruct (window_sealed e).
Qed.

Lemma press_textContent lang n : textContent (press lang n) = textContent n.
Proof.
  induction n as [s|tag attrs children IH] using node_induction; [done|].
  cbn [press textContent]. f_equal.
  induction IH as [|c children Hc _ IHc]; [done|].
  cbn [map]. by rewrite Hc, IHc.
Qed.

(** C7, as amended.  When no request for the requested dictionary and none
    for the default dictionary succeeds, [setLang] logs the failure to the
    console and applies no translation: nothing but console output and
    requests follows, and the page is the one [updateLangUi] left, which
    differs from the page before the call in the document's language
    attribute and in the pressed state of the switch controls only; the
    title, the description and the text of every node are as before. *)
Theorem total_failure_applies_nothing e requested w :
  first_fetched e (normalise requested +:+ ".json") bases = None →
  first_fetched e (DEFAULT_LANG +:+ ".json") bases = None →
  ∃ new,
    events (setLang parseHTML e requested w).2 = events w ++ new
    ∧ Forall (chatter [normalise requested +:+ ".json"; DEFAULT_LANG +:+ ".json"]) new
    ∧ Console LError "[i18n] failed to load any language file for"
        (normalise requested) ∈ new
    ∧ page (setLang parseHTML e requested w).2
      = updateLangUi (normalise requested) (page w)
    ∧ doc_title (page (setLang parseHTML e requested w).2) = doc_title (page w)
    ∧ doc_description (page (setLang parseHTML e requested w).2)
      = doc_description (page w)
    ∧ map textContent (doc_body (page (setLang parseHTML e requested w).2))
      = map textContent (doc_body (page w)).
Proof.
  intros Hprimary Hdefault.
  destruct (setLang_run parseHTML e requested w) as (evs1 & evs2 & -> & H1 & H2 & Hlog).
  assert (outcome_of e (normalise requested) = NoDictionary) as Hnone.
  { rewrite (outcome_of_failed _ _ Hprimary). unfold recovery, default_only.
    rewrite Hdefault. by destruct (String.eqb _ _). }
  rewrite Hnone in *. cbn [snd conclude emits events page prelude].
  exists ([Console LLog "[i18n] setLang()" requested] ++ evs1 ++ evs2).
  split; [by rewrite <- !app_assoc|].
  split; [by repeat (apply Forall_app; split); [repeat constructor| |]|].
  split; [rewrite !elem_of_app; by auto|].
  split; [done|].
  unfold updateLangUi. destruct (negb (nonempty (normalise requested))); [done|].
  cbn [doc_title doc_description doc_body]. repeat split.
  rewrite map_map. apply map_ext. intros n. apply press_textContent.
Qed.

Lemma calls_default e d f :
  (d, f) ∈ calls (outcome_of e DEFAULT_LANG) →
  first_fetched e (DEFAULT_LANG +:+ ".json") bases = Some d ∧ f = empty_object.
Proof.
  unfold outcome_of, recovery.
  destruct (first_fetched e (DEFAULT_LANG +:+ ".json") bases) as [dict|];
    [destruct (truthy dict)|]; cbn; rewrite ?elem_of_nil; try done.
  by intros [= -> ->]%list_elem_of_singleton.
Qed.

(** C4.  A code outside the supported set is replaced by the default code
    before [setLang] does anything but print its argument to the console:
    the preference stored is the default code, the document's language
    attribute becomes the default code, every request is for the default
    language's dictionary, and what is applied is that dictionary, over an
    empty fallback. *)
Theorem unsupported_code_becomes_default e requested w :
  SUPPORTED_has requested = false →
  ∃ new,
    events (setLang parseHTML e requested w).2
    = events w ++ Console LLog "[i18n] setLang()" requested :: new
    ∧ (storage_write_fails e = false →
       storage (setLang parseHTML e requested w).2
       = <[STORAGE_KEY := DEFAULT_LANG]> (storage w))
    ∧ (storage_write_fails e = true →
       storage (setLang parseHTML e requested w).2 = storage w)
    ∧ doc_lang (page (setLang parseHTML e requested w).2) = DEFAULT_LANG
    ∧ Forall (λ url, ∃ b, url = b +:+ DEFAULT_LANG +:+ ".json")
        (requested_urls new)
    ∧ applied new = calls (outcome_of e DEFAULT_LANG)
    ∧ (∀ d f, (d, f) ∈ calls (outcome_of e DEFAULT_LANG) →
       first_fetched e (DEFAULT_LANG +:+ ".json") bases = Some d
       ∧ f = empty_object).
Proof.
  intros Hcode. pose proof (normalise_unsupported _ Hcode) as Hlang.
  destruct (setLang_run parseHTML e requested w) as (evs1 & evs2 & Hrun & H1 & H2 & _).
  rewrite Hlang in *.
  destruct (conclude_events true e (outcome_of e DEFAULT_LANG)
              (emits evs1 (prelude e requested w))) as (extra & Hextra & Hurls & Hcalls).
  exists (evs1 ++ extra ++ evs2).
  split; [|split; [|split; [|split; [|split; [|split]]]]].
  - rewrite Hrun. cbn [snd emits events]. rewrite Hextra.
    cbn [emits events prelude]. by rewrite <- !app_assoc.
  - intros Hw. rewrite Hrun. cbn [snd]. rewrite settled_storage, Hw. by rewrite Hlang.
  - intros Hw. rewrite Hrun. cbn [snd]. by rewrite settled_storage, Hw.
  - rewrite Hrun. cbn [snd]. by rewrite settled_lang.
  - rewrite !requested_urls_app, Hurls. cbn [app].
    assert (∀ evs,
      Forall (chatter [DEFAULT_LANG +:+ ".json"; DEFAULT_LANG +:+ ".json"]) evs →
      Forall (λ url, ∃ b, url = b +:+ DEFAULT_LANG +:+ ".json")
        (requested_urls evs)) as Hdefault.
    { intros evs Hevs%chatter_urls. eapply Forall_impl; [exact Hevs|].
      intros url (b & file & Hfile & ->). exists b.
      apply elem_of_cons in Hfile as [->|Hfile]; [done|].
      by apply list_elem_of_singleton in Hfile as ->. }
    apply Forall_app. by auto.
  - rewrite !applied_app, Hcalls, (chatter_applied _ _ H1), (chatter_applied _ _ H2).
    by rewrite app_nil_r.
  - apply calls_default.
Qed.

End Switching.

Lemma SUPPORTED_has_true code : SUPPORTED_has code = true ↔ code ∈ SUPPORTED.
Proof. unfold SUPPORTED_has. by rewrite bool_decide_eq_true. Qed.

Lemma SUPPORTED_has_false code : SUPPORTED_has code = false ↔ code ∉ SUPPORTED.
Proof. unfold SUPPORTED_has. by rewrite bool_decide_eq_false. Qed.

Lemma supported_nonempty code : code ∈ SUPPORTED → nonempty code = true.
Proof. unfold SUPPORTED. intros [->%elem_of_singleton | ->%elem_of_singleton]%elem_of_union; done. Qed.

(** The language of the page, if supported, and the default code if not. *)
Lemma getInitialLang_unsaved e w :
  (storage_read_fails e = true ∨ storage w !! STORAGE_KEY = None
   ∨ ∃ code, storage w !! STORAGE_KEY = Some code ∧ code ∉ SUPPORTED) →
  getInitialLang e w
  = (inr (if SUPPORTED_has (doc_lang (page w)) then doc_lang (page w)
          else DEFAULT_LANG), w).
Proof.
  intros Hsaved.
  assert (∀ docLang,
    (if nonempty docLang && SUPPORTED_has docLang then docLang else DEFAULT_LANG)
    = if SUPPORTED_has docLang then docLang else DEFAULT_LANG) as Hdoc.
  { intros docLang. destruct (SUPPORTED_has docLang) eqn:H.
    - apply SUPPORTED_has_true, supported_nonempty in H. by rewrite H.
    - by rewrite andb_false_r. }
  unfold getInitialLang, mbind, M_bind, try_catch, localStorage_getItem, mret, M_ret.
  destruct (storage_read_fails e).
  - rewrite <- Hdoc. by destruct (_ && _).
  - destruct Hsaved as [?|[->|(code & -> & Hcode)]]; [done| |].
    + rewrite <- Hdoc. by destruct (_ && _).
    + apply SUPPORTED_has_false in Hcode. rewrite Hcode, andb_false_r.
      rewrite <- Hdoc. by destruct (_ && _).
Qed.

(** C5.  [getInitialLang] returns the stored preference when there is one
    and it is a supported code; otherwise the document's language attribute
    when that is a supported code; otherwise the default code.  It changes
    nothing and does not throw, and a storage that cannot be read gives what
    a storage without a preference gives. *)
Theorem initial_language e w :
  ∃ lang,
    getInitialLang e w = (inr lang, w)
    ∧ (∀ code, storage_read_fails e = false →
         storage w !! STORAGE_KEY = Some code → code ∈ SUPPORTED → lang = code)
    ∧ ((storage_read_fails e = true ∨ storage w !! STORAGE_KEY = None
        ∨ ∃ code, storage w !! STORAGE_KEY = Some code ∧ code ∉ SUPPORTED) →
       (doc_lang (page w) ∈ SUPPORTED → lang = doc_lang (page w))
       ∧ (doc_lang (page w) ∉ SUPPORTED → lang = DEFAULT_LANG))
    ∧ (∀ e' w', storage_read_fails e = true → storage_read_fails e' = false →
         storage w' !! STORAGE_KEY = None → page w' = page w →
         getInitialLang e' w' = (inr lang, w')).
Proof.
  destruct (getInitialLang e w) as [r w'] eqn:Hrun.
  assert (∃ lang, r = inr lang ∧ w' = w) as (lang & -> & ->).
  { revert Hrun.
    unfold getInitialLang, mbind, M_bind, try_catch, localStorage_getItem, mret, M_ret.
    destruct (storage_read_fails e); [|destruct (storage w !! STORAGE_KEY) as [code|]];
      repeat (destruct (_ && _)); intros [= <- <-]; by eauto. }
  exists lang. split; [done|]. split; [|split].
  - intros code Hread Hcode Hsupported. revert Hrun.
    unfold getInitialLang, mbind, M_bind, try_catch, localStorage_getItem, mret, M_ret.
    rewrite Hread, Hcode, (supported_nonempty _ Hsupported).
    apply SUPPORTED_has_true in Hsupported as ->. by intros [= <-].
  - intros Hsaved. rewrite (getInitialLang_unsaved _ _ Hsaved) in Hrun.
    injection Hrun as <-. split.
    + by intros ->%SUPPORTED_has_true.
    + by intros ->%SUPPORTED_has_false.
  - intros e' w' Hfail Hread Hnone Hpage.
    rewrite getInitialLang_unsaved in Hrun by auto.
    rewrite getInitialLang_unsaved by auto.
    injection Hrun as <-. by rewrite Hpage.
Qed.

(** C10 fails on the code.  After a switch to [it] that loads both
    dictionaries, a second switch whose request for [it] fails applies the
    default dictionary alone; [refresh] then applies the pair of the first
    switch again, not the dictionaries loaded last.  And when the first
    switch of a session ends that way, a dictionary has been loaded and
    applied while [window.i18n] is still undefined. *)
Theorem refresh_after_recovery_is_stale :
  let w1 := (setLang plain_text both_served "it" sample_world).2 in
  let w2 := (setLang plain_text default_served "it" w1).2 in
  let w3 := (refresh plain_text w2).2 in
  applied (events w2) = [(sample_it, sample_hu); (sample_hu, empty_object)]
  ∧ window_i18n w2 = Some {[ "refresh"; "setLang" ]}
  ∧ applied (events w3)
    = [(sample_it, sample_hu); (sample_hu, empty_object); (sample_it, sample_hu)]
  ∧ applied (events (setLang plain_text default_served "it" sample_world).2)
    = [(sample_hu, empty_object)]
  ∧ window_i18n (setLang plain_text default_served "it" sample_world).2 = None.
Proof. vm_compute. repeat split. Qed.

(** What does hold of the global API: a call of [setLang] that finds
    [window.i18n] undefined and leaves it defined has loaded the requested
    dictionary, and has stored the pair it applied for [refresh]. *)
Lemma api_installed_by_loading parseHTML e requested w :
  window_i18n w = None →
  window_i18n (setLang parseHTML e requested w).2 ≠ None →
  ∃ d f,
    outcome_of e (normalise requested) = Loaded d f
    ∧ lastDict (setLang parseHTML e requested w).2 = Some d
    ∧ lastFallback (setLang parseHTML e requested w).2 = Some f.
Proof.
  intros Hnone.
  destruct (setLang_run parseHTML e requested w) as (evs1 & evs2 & -> & _).
  cbn [snd emits window_i18n lastDict lastFallback].
  destruct (outcome_of e (normalise requested)) as [|d|d f];
    cbn [conclude]; try done.
  intros _. exists d, f. split; [done|].
  unfold try_catch, expose, remember, mret, M_ret, callApplyTranslations.
  cbn [snd fst]. by destruct (window_sealed e).
Qed.

(** ** The statements at sample inputs *)



(** C4 on the sample page, for the code [de]. *)
Lemma unsupported_code_becomes_default_witness :
  SUPPORTED_has "de" = false
  ∧ storage (setLang plain_text both_served "de" sample_world).2 !! STORAGE_KEY
    = Some "hu"
  ∧ doc_lang (page (setLang plain_text both_served "de" sample_world).2) = "hu"
  ∧ applied (events (setLang plain_text both_served "de" sample_world).2)
    = [(sample_hu, empty_object)].
Proof.
  assert (SUPPORTED_has "de" = false) as Hcode by (vm_compute; reflexivity).
  destruct (unsupported_code_becomes_default plain_text both_served "de"
              sample_world Hcode)
    as (new & Hevents & Hstored & _ & Hlang & _ & Hcalls & _).
  split; [exact Hcode|].
  split; [rewrite Hstored by reflexivity; apply lookup_insert_eq|].
  split; [exact Hlang|].
  rewrite Hevents. change (events sample_world) with (@nil event).
  cbn [app applied omap list_omap]. fold (applied new). rewrite Hcalls.
  vm_compute. reflexivity.
Defined.

(** C5: a stored Italian preference wins over the page's Hungarian; with
    nothing stored the page's language is taken; a storage that throws
    gives the same. *)
Lemma initial_language_witness :
  getInitialLang both_served returning_world = (inr "it", returning_world)
  ∧ getInitialLang both_served sample_world = (inr "hu", sample_world)
  ∧ getInitialLang storage_denied returning_world = (inr "hu", returning_world).
Proof.
  destruct (initial_language both_served returning_world)
    as (lang1 & Hrun1 & Hsaved & _).
  destruct (initial_language both_served sample_world)
    as (lang2 & Hrun2 & _ & Hpage & _).
  destruct (initial_language storage_denied returning_world)
    as (lang3 & Hrun3 & _ & _ & Hdenied).
  assert (lang2 = "hu") as ->.
  { destruct (Hpage (or_intror (or_introl eq_refl))) as [Hdoc _].
    apply Hdoc, SUPPORTED_has_true. vm_compute. reflexivity. }
  split; [|split].
  - rewrite Hrun1. f_equal. f_equal.
    apply (Hsaved "it"); [reflexivity|reflexivity|].
    apply SUPPORTED_has_true. vm_compute. reflexivity.
  - exact Hrun2.
  - rewrite Hrun3. f_equal. f_equal.
    specialize (Hdenied both_served sample_world eq_refl eq_refl eq_refl eq_refl).
    rewrite Hrun2 in Hdenied. by injection Hdenied as <-.
Defined.



(** C7 on the sample page with the network down. *)
Lemma total_failure_applies_nothing_witness :
  first_fetched offline (normalise "it" +:+ ".json") bases = None
  ∧ first_fetched offline (DEFAULT_LANG +:+ ".json") bases = None
  ∧ page (setLang plain_text offline "it" sample_world).2
    = updateLangUi "it" sample_page
  ∧ doc_title (page (setLang plain_text offline "it" sample_world).2) = "Verseny".
Proof.
  assert (first_fetched offline (normalise "it" +:+ ".json") bases = None)
    as Hprimary by (vm_compute; reflexivity).
  assert (first_fetched offline (DEFAULT_LANG +:+ ".json") bases = None)
    as Hdefault by (vm_compute; reflexivity).
  destruct (total_failure_applies_nothing plain_text offline "it" sample_world
              Hprimary Hdefault)
    as (new & _ & _ & _ & Hpage & Htitle & _).
  split; [exact Hprimary|]. split; [exact Hdefault|].
  split; [exact Hpage|exact Htitle].
Defined.

(** C7, as stated, fails: with the network down, a switch to Italian
    leaves the page marked as Italian and its Italian control pressed. *)
Lemma total_failure_changes_language :
  first_fetched offline "it.json" bases = None
  ∧ first_fetched offline "hu.json" bases = None
  ∧ doc_lang (page sample_world) = "hu"
  ∧ doc_lang (page (setLang plain_text offline "it" sample_world).2) = "it"
  ∧ (doc_body (page sample_world) !! 2%nat) ≫= (λ n, node_attrs n !! "aria-pressed")
    = None
  ∧ (doc_body (page (setLang plain_text offline "it" sample_world).2) !! 2%nat)
      ≫= (λ n, node_attrs n !! "aria-pressed")
    = Some "true".
Proof. vm_compute. repeat split. Qed.


(** * Further properties *)

(** * Further properties *)

(** ** Splitting and trimming *)

Lemma split_whole sep s : includes sep s = false → split sep s = [s].
Proof.
  induction s as [|c r IH]; cbn [includes split]; [done|].
  intros [Hc Hr]%orb_false_elim. by rewrite Hc, (IH Hr).
Qed.

Lemma append_empty s : "" +:+ s = s.
Proof. reflexivity. Qed.

Lemma append_String c r s : String c r +:+ s = String c (r +:+ s).
Proof. reflexivity. Qed.

Lemma split_at sep p q :
  split sep (p +:+ String sep q) = split sep p ++ split sep q.
Proof.
  induction p as [|c r IH].
  - rewrite append_empty. cbn [split]. by rewrite Ascii.eqb_refl.
  - rewrite append_String. cbn [split].
    destruct (Ascii.eqb c sep); [by rewrite IH|].
    rewrite IH. by destruct (split_cons sep r) as (h & t & ->).
Qed.

Lemma split_parts_clean sep s : Forall (λ p, includes sep p = false) (split sep s).
Proof.
  induction s as [|c r IH]; cbn [split]; [by repeat constructor|].
  destruct (Ascii.eqb c sep) eqn:Hc; [by constructor|].
  destruct (split sep r) as [|h t].
  - repeat constructor. cbn [includes]. by rewrite Hc.
  - inversion IH as [|?? Hh Ht]; subst. constructor; [|done].
    cbn [includes]. by rewrite Hc, Hh.
Qed.

Lemma trim_start_idem s : trim_start (trim_start s) = trim_start s.
Proof.
  induction s as [|c r IH]; simpl; [done|].
  destruct (is_space c) eqn:Hc; [done|]. simpl. by rewrite Hc.
Qed.

Lemma trim_end_String c r :
  trim_end (String c r)
  = match trim_end r with
    | "" => if is_space c then "" else String c ""
    | r' => String c r'
    end.
Proof. reflexivity. Qed.

Lemma trim_end_idem s : trim_end (trim_end s) = trim_end s.
Proof.
  induction s as [|c r IH]; [done|].
  rewrite (trim_end_String c r).
  destruct (trim_end r) as [|c' r'] eqn:Hr.
  - destruct (is_space c) eqn:Hc; [done|].
    rewrite trim_end_String. cbn [trim_end]. by rewrite Hc.
  - rewrite trim_end_String. by rewrite IH.
Qed.

Lemma trim_start_trim_end s :
  trim_start (trim_end (trim_start s)) = trim_end (trim_start s).
Proof.
  induction s as [|c r IH]; [done|]. cbn [trim_start].
  destruct (is_space c) eqn:Hc; [done|].
  rewrite trim_end_String.
  destruct (trim_end r); rewrite ?Hc; cbn [trim_start]; by rewrite Hc.
Qed.

Lemma trim_idem s : trim (trim s) = trim s.
Proof. unfold trim. by rewrite trim_start_trim_end, trim_end_idem. Qed.

Lemma includes_trim_start c s :
  includes c s = false → includes c (trim_start s) = false.
Proof.
  induction s as [|d r IH]; cbn [includes trim_start]; [done|].
  intros [Hd Hr]%orb_false_elim. destruct (is_space d); [by auto|].
  cbn [includes]. by rewrite Hd, Hr.
Qed.

Lemma includes_trim_end c s :
  includes c s = false → includes c (trim_end s) = false.
Proof.
  induction s as [|d r IH]; [done|]. cbn [includes].
  intros [Hd Hr]%orb_false_elim. specialize (IH Hr).
  rewrite trim_end_String.
  destruct (trim_end r) as [|d' r'].
  - destruct (is_space d); cbn [includes]; [done|]. by rewrite Hd.
  - change (includes c (String d (String d' r')))
      with (Ascii.eqb d c || includes c (String d' r')).
    by rewrite Hd, IH.
Qed.

Lemma includes_trim c s : includes c s = false → includes c (trim s) = false.
Proof. intros H. unfold trim. by apply includes_trim_end, includes_trim_start. Qed.

(** X7.  The pieces that the attribute pass takes a marker apart into are
    never empty, have no white space at either end, contain no [';'], and
    there are no more of them than the marker has [';']-separated parts. *)
Theorem pieces_are_clean (spec : string) :
  Forall (λ p, p ≠ "" ∧ trim p = p ∧ includes ";" p = false) (pieces spec)
  ∧ (List.length (pieces spec) ≤ List.length (split ";" spec))%nat.
Proof.
  unfold pieces. split.
  - apply List.Forall_forall. intros p [Hin Hp]%filter_In.
    apply in_map_iff in Hin as (q & <- & Hq).
    split; [by apply nonempty_true|].
    split; [apply trim_idem|]. apply includes_trim.
    exact (proj1 (List.Forall_forall _ _) (split_parts_clean ";" spec) q Hq).
  - etrans; [apply List.filter_length_le|]. by rewrite List.length_map.
Qed.

(** ** Paths into a dictionary *)

(** X1.  Looking up a path made of two paths joined by a dot is looking up
    the first and then, in what it yields, the second: [getByPath] has no
    state besides the value reached. *)
Theorem getByPath_compose (obj : json) (p q : string) :
  nonempty p = true → nonempty q = true →
  getByPath obj (p +:+ "." +:+ q) = getByPath obj p ≫= (λ v, getByPath v q).
Proof.
  intros Hp Hq. unfold getByPath. rewrite Hp, Hq.
  assert (nonempty (p +:+ "." +:+ q) = true) as ->.
  { destruct p; [done|reflexivity]. }
  cbn [negb orb]. rewrite !orb_false_r.
  destruct (truthy obj); cbn [negb]; [|done].
  change ("." +:+ q) with (String "." q).
  rewrite split_at, fold_left_app.
  destruct (fold_left descend (split "." p) (Some obj)) as [v|]; cbn.
  - destruct (truthy v) eqn:Hv; cbn [negb]; [done|].
    destruct (split_cons "." q) as (h & t & ->). cbn [fold_left descend].
    rewrite Hv. apply descend_undefined.
  - apply descend_undefined.
Qed.

Lemma getByPath_compose_witness :
  nonempty "form" = true ∧ nonempty "name" = true
  ∧ getByPath sample_hu ("form" +:+ "." +:+ "name") = Some (JStr "Nev")
  ∧ getByPath sample_hu "form" ≫= (λ v, getByPath v "name") = Some (JStr "Nev").
Proof.
  split; [reflexivity|]. split; [reflexivity|].
  split; [vm_compute; reflexivity|].
  rewrite <- (getByPath_compose sample_hu "form" "name" eq_refl eq_refl).
  vm_compute. reflexivity.
Defined.

(** X2.  A key without a dot is one look-up of an own property: a mapping
    gives the value it holds under the key and nothing for a key it does not
    hold; [null], [false], zero and the empty string give nothing for any
    key; and the empty key gives nothing from any value. *)
Theorem getByPath_single_segment (obj : json) (key : string) :
  (nonempty key = true → includes "." key = false →
   getByPath obj key = if truthy obj then own_property obj key else None)
  ∧ (∀ props, nonempty key = true → includes "." key = false →
     getByPath (JObj props) key = props !! key)
  ∧ (truthy obj = false → getByPath obj key = None)
  ∧ getByPath obj "" = None.
Proof.
  assert (nonempty key = true → includes "." key = false →
    ∀ o, getByPath o key = if truthy o then own_property o key else None) as H.
  { intros Hkey Hdot o. unfold getByPath. rewrite Hkey, (split_whole _ _ Hdot).
    cbn [negb orb fold_left descend]. rewrite orb_false_r.
    by destruct (truthy o). }
  split; [by auto|]. split; [|split].
  - intros props Hkey Hdot. by rewrite H.
  - apply getByPath_falsy.
  - unfold getByPath. cbn. by rewrite orb_true_r.
Qed.

Lemma getByPath_single_segment_witness :
  getByPath sample_hu "intro" = Some (JStr "Szia")
  ∧ getByPath sample_hu "absent" = None
  ∧ getByPath JNull "intro" = None.
Proof.
  destruct (getByPath_single_segment sample_hu "intro") as (H1 & _).
  destruct (getByPath_single_segment sample_hu "absent") as (H2 & _).
  destruct (getByPath_single_segment JNull "intro") as (_ & _ & H3 & _).
  split; [rewrite H1 by reflexivity; vm_compute; reflexivity|].
  split; [rewrite H2 by reflexivity; vm_compute; reflexivity|].
  apply H3. reflexivity.
Defined.

(** ** Pairs with more than one colon *)

(** X8.  In a pair of an attribute marker only the text up to the second
    colon counts: what follows a second colon is dropped, so a key cannot
    contain a colon. *)
Theorem text_after_second_colon_ignored dict fallbackDict el name key rest :
  includes ":" name = false → includes ":" key = false →
  bind_pair dict fallbackDict el (name +:+ ":" +:+ key +:+ ":" +:+ rest)
  = bind_pair dict fallbackDict el (name +:+ ":" +:+ key).
Proof.
  intros Hname Hkey. unfold bind_pair.
  change (":" +:+ key +:+ ":" +:+ rest) with (String ":" (key +:+ String ":" rest)).
  change (":" +:+ key) with (String ":" key).
  rewrite !split_at, (split_whole _ _ Hname), (split_whole _ _ Hkey).
  reflexivity.
Qed.

Lemma text_after_second_colon_ignored_witness :
  bind_pair sample_hu empty_object (∅, []) "title:intro:form.name"
  = bind_pair sample_hu empty_object (∅, []) "title:intro"
  ∧ (bind_pair sample_hu empty_object (∅, []) "title:intro").2
    = [WAttr "title" "intro" "Szia"].
Proof.
  split.
  - apply (text_after_second_colon_ignored sample_hu empty_object (∅, [])
             "title" "intro" "form.name"); reflexivity.
  - vm_compute. reflexivity.
Defined.

(** ** The base path derived from the page's path *)

Lemma append_empty_r s : s +:+ "" = s.
Proof. induction s as [|c r IH]; [done|]. by rewrite append_String, IH. Qed.

(** X12.  The second earlier revision derives the base path from the first
    non-empty segment of the page's path alone: a segment with a dot in it
    is taken for a file at the site root, any other for the directory the
    site lives in; how deep the page lies below it makes no difference.  A
    path with no segment gives the site root. *)
Theorem base_path_from_first_segment (e : env) (seg tail : string) :
  (nonempty seg = true → includes "/" seg = false →
   tail = "" ∨ (∃ rest, tail = "/" +:+ rest) →
   pathname e = "/" +:+ seg +:+ tail →
   DerivedPath.getI18nBasePath e
   = if includes "." seg then "/i18n/" else "/" +:+ seg +:+ "/i18n/")
  ∧ (pathname e = "" ∨ pathname e = "/" ∨ pathname e = "//" →
     DerivedPath.getI18nBasePath e = "/i18n/").
Proof.
  split.
  - intros Hseg Hslash Htail Hpath. unfold DerivedPath.getI18nBasePath.
    rewrite Hpath.
    change ("/" +:+ seg +:+ tail) with ("" +:+ String "/" (seg +:+ tail)).
    assert (nonempty ("" +:+ String "/" (seg +:+ tail)) = true) as -> by done.
    rewrite split_at.
    assert (∃ more, split "/" (seg +:+ tail) = seg :: more) as [more ->].
    { destruct Htail as [->|[rest ->]].
      - rewrite append_empty_r, (split_whole _ _ Hslash). by eauto.
      - change ("/" +:+ rest) with (String "/" rest).
        rewrite split_at, (split_whole _ _ Hslash). by eauto. }
    cbn [split app List.filter nonempty String.eqb negb]. by rewrite Hseg.
  - unfold DerivedPath.getI18nBasePath. by intros [->|[->| ->]].
Qed.

Lemma base_path_from_first_segment_witness :
  DerivedPath.getI18nBasePath
    (Env unreachable false false false "/SZTE-olasz-nyelviverseny/tortenet.html")
  = "/SZTE-olasz-nyelviverseny/i18n/"
  ∧ DerivedPath.getI18nBasePath (Env unreachable false false false "/index.html")
    = "/i18n/"
  ∧ DerivedPath.getI18nBasePath (Env unreachable false false false "/") = "/i18n/".
Proof.
  destruct (base_path_from_first_segment
              (Env unreachable false false false
                 "/SZTE-olasz-nyelviverseny/tortenet.html")
              "SZTE-olasz-nyelviverseny" "/tortenet.html") as [Hproject _].
  destruct (base_path_from_first_segment
              (Env unreachable false false false "/index.html") "index.html" "")
    as [Hfile _].
  destruct (base_path_from_first_segment
              (Env unreachable false false false "/") "" "") as [_ Hroot].
  split; [|split].
  - apply Hproject;
      [reflexivity|reflexivity|right; by exists "tortenet.html"|reflexivity].
  - apply Hfile; [reflexivity|reflexivity|by left|reflexivity].
  - apply Hroot. by right; left.
Defined.

(** ** What the dictionaries contribute to a translation *)

Lemma getByPath_empty_object key : getByPath empty_object key = None.
Proof.
  unfold getByPath, empty_object. destruct (nonempty key); [|done].
  cbn [truthy negb orb]. destruct (split_cons "." key) as (h & t & ->).
  cbn [fold_left descend truthy own_property]. rewrite lookup_empty.
  apply descend_undefined.
Qed.

Lemma resolve_empty_fallback d key :
  resolve d empty_object key
  = if nonempty key then filled_string (getByPath d key) else None.
Proof.
  unfold resolve. destruct (nonempty key); [|done]. cbn [negb].
  destruct (filled_string (getByPath d key)); [done|].
  by rewrite getByPath_empty_object.
Qed.

Lemma resolve_empty_primary d key :
  resolve empty_object d key = resolve d empty_object key.
Proof.
  rewrite resolve_empty_fallback. unfold resolve.
  destruct (nonempty key); [|done]. cbn [negb].
  rewrite getByPath_empty_object. cbn [filled_string].
  destruct (truthy d) eqn:Hd; [done|]. by rewrite getByPath_falsy.
Qed.

Lemma resolve_over_itself d key : resolve d d key = resolve d empty_object key.
Proof.
  rewrite resolve_empty_fallback. unfold resolve.
  destruct (nonempty key); [|done]. cbn [negb].
  destruct (filled_string (getByPath d key)) eqn:H; [done|].
  by destruct (truthy d).
Qed.

Lemma resolve_falsy d f key :
  (truthy d = false ∨ d = empty_object) → (truthy f = false ∨ f = empty_object) →
  resolve d f key = None.
Proof.
  intros Hd Hf.
  assert (∀ v, truthy v = false ∨ v = empty_object → getByPath v key = None) as H.
  { intros v [Hv| ->]; [by apply getByPath_falsy|apply getByPath_empty_object]. }
  unfold resolve. rewrite (H d Hd), (H f Hf). cbn [filled_string].
  by destruct (negb _), (truthy f).
Qed.

Section Dictionaries.

Variable parseHTML : string → string → list node.
Variables d f d' f' : json.
Hypothesis same : ∀ key, resolve d f key = resolve d' f' key.

Lemma map_pass_ext (pass pass' : node → node * list dom_write) children :
  Forall (λ n, pass n = pass' n) children → map pass children = map pass' children.
Proof. induction 1 as [|c children Hc _ IH]; [done|]. cbn [map]. by rewrite Hc, IH. Qed.

Lemma text_pass_ext n : text_pass d f n = text_pass d' f' n.
Proof.
  induction n as [s|tag attrs children IH] using node_induction; [done|].
  cbn [text_pass]. rewrite (map_pass_ext _ _ _ IH).
  destruct (attrs !! "data-i18n") as [key|]; [|done]. by rewrite same.
Qed.

Lemma html_pass_ext n : html_pass parseHTML d f n = html_pass parseHTML d' f' n.
Proof.
  induction n as [s|tag attrs children IH] using node_induction; [done|].
  cbn [html_pass]. rewrite (map_pass_ext _ _ _ IH).
  destruct (attrs !! "data-i18n-html") as [key|]; [|done]. by rewrite same.
Qed.

Lemma bindings_ext spec : bindings d f spec = bindings d' f' spec.
Proof.
  unfold bindings. induction (pieces spec) as [|pair ps IH]; [done|].
  cbn [omap list_omap]. rewrite IH. unfold binding.
  destruct (pair_parts pair) as [[attr key]|]; [|done]. cbn. by rewrite same.
Qed.

Lemma attr_pass_ext n : attr_pass d f n = attr_pass d' f' n.
Proof.
  induction n as [s|tag attrs children IH] using node_induction; [done|].
  cbn [attr_pass]. rewrite (map_pass_ext _ _ _ IH).
  by rewrite !bind_attrs_bindings, bindings_ext.
Qed.

Lemma over_body_ext (pass pass' : node → node * list dom_write) page :
  (∀ n, pass n = pass' n) → over_body pass page = over_body pass' page.
Proof.
  intros H. unfold over_body.
  assert (map pass (doc_body page) = map pass' (doc_body page)) as ->; [|done].
  apply map_ext. intros n. apply H.
Qed.

Lemma and_then_ext (f1 g1 f2 g2 : document → document * list dom_write) page :
  (∀ p, f1 p = f2 p) → (∀ p, g1 p = g2 p) →
  and_then f1 g1 page = and_then f2 g2 page.
Proof. intros Hf Hg. unfold and_then. by rewrite Hf, Hg. Qed.

(** [applyTranslations] reads its two dictionaries through [resolve]
    alone. *)
Lemma applyTranslations_ext page :
  applyTranslations parseHTML d f page = applyTranslations parseHTML d' f' page.
Proof.
  unfold applyTranslations.
  repeat (apply and_then_ext; intros); try (apply over_body_ext; intros).
  - unfold set_title. by rewrite same.
  - unfold set_description. by rewrite same.
  - apply text_pass_ext.
  - apply html_pass_ext.
  - apply attr_pass_ext.
Qed.

End Dictionaries.

(** X3.  Applying a dictionary over an empty fallback, applying it as the
    fallback of an empty primary, and applying it over itself leave the same
    page and make the same writes. *)
Theorem one_dictionary_either_way parseHTML (d : json) (page : document) :
  applyTranslations parseHTML empty_object d page
  = applyTranslations parseHTML d empty_object page
  ∧ applyTranslations parseHTML d d page
    = applyTranslations parseHTML d empty_object page.
Proof.
  split; apply applyTranslations_ext; intros key.
  - apply resolve_empty_primary.
  - apply resolve_over_itself.
Qed.

Section Nothing.

Variable parseHTML : string → string → list node.
Variables d f : json.
Hypothesis nothing : ∀ key, resolve d f key = None.

Lemma bindings_nothing spec : bindings d f spec = [].
Proof.
  unfold bindings. induction (pieces spec) as [|pair ps IH]; [done|].
  cbn [omap list_omap]. rewrite IH. unfold binding.
  destruct (pair_parts pair) as [[attr key]|]; [|done]. cbn. by rewrite nothing.
Qed.

Lemma quiet_nothing n : quiet d f n = true.
Proof.
  induction n as [s|tag attrs children IH] using node_induction; [done|].
  cbn [quiet]. rewrite bindings_nothing.
  assert (∀ marker, unresolved d f marker = true) as Hmarker.
  { intros [key|]; [|done]. cbn. by rewrite nothing. }
  rewrite !Hmarker. cbn [andb].
  induction IH as [|c children Hc _ IHc]; [done|]. cbn [forallb]. by rewrite Hc.
Qed.

Lemma over_body_nothing (pass : node → node * list dom_write) page :
  (∀ n, pass n = (n, [])) → over_body pass page = (page, []).
Proof.
  intros Hpass. unfold over_body.
  assert (map pass (doc_body page) = map (λ n, (n, [])) (doc_body page)) as ->.
  { apply map_ext. intros n. apply Hpass. }
  destruct (unvisited (doc_body page)) as [-> ->]. by destruct page.
Qed.

Lemma applyTranslations_nothing page :
  applyTranslations parseHTML d f page = (page, []).
Proof.
  unfold applyTranslations, and_then, set_title, set_description.
  rewrite !nothing. cbn [fst snd].
  rewrite !over_body_nothing; [done| | |]; intros n;
    first [apply text_pass_quiet | apply html_pass_quiet | apply attr_pass_quiet];
    apply quiet_nothing.
Qed.

End Nothing.

(** X9.  With dictionaries in which no key can resolve, each an empty
    mapping or a falsy value such as [null], [applyTranslations] writes
    nothing and leaves the page exactly as it was. *)
Theorem empty_dictionaries_change_nothing parseHTML (d f : json) (page : document) :
  truthy d = false ∨ d = empty_object →
  truthy f = false ∨ f = empty_object →
  applyTranslations parseHTML d f page = (page, []).
Proof.
  intros Hd Hf. apply applyTranslations_nothing. intros key.
  by apply resolve_falsy.
Qed.

Lemma empty_dictionaries_change_nothing_witness :
  applyTranslations plain_text empty_object JNull sample_page = (sample_page, []).
Proof.
  apply (empty_dictionaries_change_nothing plain_text empty_object JNull sample_page).
  - right. reflexivity.
  - left. reflexivity.
Defined.

Section Bound.

Variable parseHTML : string → string → list node.
Variables dict fallbackDict : json.




End Bound.



(** ** The language shown by the switch controls *)

(** What [updateLangUi] does to the attributes of one element. *)
Lemma press_attrs lang tag attrs children :
  node_attrs (press lang (Elem tag attrs children))
  = match attrs !! "data-set-lang" with
    | Some code =>
        setAttribute "aria-pressed"
          (if String.eqb code lang then "true" else "false") attrs
    | None => attrs
    end.
Proof. reflexivity. Qed.

Lemma pressed_keeps_code value attrs :
  setAttribute "aria-pressed" value attrs !! "data-set-lang"
  = attrs !! "data-set-lang".
Proof. unfold setAttribute. by rewrite lookup_insert_ne. Qed.

Lemma select_press lang n :
  select "data-set-lang" (press lang n)
  = map (λ attrs,
           setAttribute "aria-pressed"
             (if String.eqb (default "" (attrs !! "data-set-lang")) lang
              then "true" else "false") attrs)
      (select "data-set-lang" n).
Proof.
  induction n as [s|tag attrs children IH] using node_induction; [done|].
  cbn [press select]. rewrite map_app. f_equal.
  - destruct (attrs !! "data-set-lang") as [code|] eqn:Hcode.
    + rewrite pressed_keeps_code, Hcode. cbn [map]. by rewrite Hcode.
    + by rewrite Hcode.
  - induction IH as [|c children Hc _ IHc]; [done|].
    cbn [map concat]. by rewrite map_app, Hc, IHc.
Qed.

Lemma select_has name n :
  Forall (λ attrs, is_Some (attrs !! name)) (select name n).
Proof.
  induction n as [s|tag attrs children IH] using node_induction; [constructor|].
  cbn [select]. apply Forall_app. split.
  - destruct (attrs !! name) eqn:H; [|constructor].
    repeat constructor. by rewrite H.
  - induction IH as [|c children Hc _ IHc]; [constructor|].
    cbn [map concat]. apply Forall_app. by split.
Qed.

Lemma querySelectorAll_updateLangUi lang d :
  nonempty lang = true →
  querySelectorAll "data-set-lang" (updateLangUi lang d)
  = map (λ attrs,
           setAttribute "aria-pressed"
             (if String.eqb (default "" (attrs !! "data-set-lang")) lang
              then "true" else "false") attrs)
      (querySelectorAll "data-set-lang" d).
Proof.
  intros Hlang. unfold updateLangUi, querySelectorAll. rewrite Hlang.
  cbn [negb doc_body]. induction (doc_body d) as [|n body IH]; [done|].
  cbn [map concat]. by rewrite map_app, select_press, IH.
Qed.

(** X10.  After [updateLangUi] the page has the same switch controls, in
    the same order and with the same codes, and each of them says whether
    it is the current one: [aria-pressed] is ["true"] on the controls whose
    code is the language set and ["false"] on every other control. *)
Theorem controls_show_the_language (lang : string) (d : document) :
  nonempty lang = true →
  map (λ attrs, attrs !! "data-set-lang")
    (querySelectorAll "data-set-lang" (updateLangUi lang d))
  = map (λ attrs, attrs !! "data-set-lang") (querySelectorAll "data-set-lang" d)
  ∧ Forall
      (λ attrs,
         ∃ code, attrs !! "data-set-lang" = Some code
                 ∧ attrs !! "aria-pressed"
                   = Some (if String.eqb code lang then "true" else "false"))
      (querySelectorAll "data-set-lang" (updateLangUi lang d))
  ∧ doc_lang (updateLangUi lang d) = lang.
Proof.
  intros Hlang. rewrite (querySelectorAll_updateLangUi _ _ Hlang).
  split; [|split].
  - rewrite map_map. apply map_ext. intros attrs. apply pressed_keeps_code.
  - apply List.Forall_map.
    assert (Forall (λ attrs, is_Some (attrs !! "data-set-lang"))
              (querySelectorAll "data-set-lang" d)) as Hhas.
    { unfold querySelectorAll. induction (doc_body d) as [|n body IH]; [constructor|].
      cbn [map concat]. apply Forall_app. split; [apply select_has|done]. }
    eapply Forall_impl; [exact Hhas|]. intros attrs [code Hcode].
    exists code. rewrite pressed_keeps_code, Hcode. split; [done|].
    unfold setAttribute. by rewrite lookup_insert_eq.
  - unfold updateLangUi. by rewrite Hlang.
Qed.

Lemma controls_show_the_language_witness :
  map (λ attrs, (attrs !! "data-set-lang", attrs !! "aria-pressed"))
    (querySelectorAll "data-set-lang" (updateLangUi "it" sample_page))
  = [(Some "it", Some "true")]
  ∧ doc_lang (updateLangUi "it" sample_page) = "it".
Proof.
  destruct (controls_show_the_language "it" sample_page eq_refl) as (_ & _ & Hlang).
  split; [vm_compute; reflexivity|exact Hlang].
Defined.

Lemma press_press a b n : press b (press a n) = press b n.
Proof.
  induction n as [s|tag attrs children IH] using node_induction; [done|].
  cbn [press]. f_equal.
  - destruct (attrs !! "data-set-lang") as [code|] eqn:Hcode.
    + rewrite pressed_keeps_code, Hcode. unfold setAttribute.
      apply insert_insert_eq.
    + by rewrite Hcode.
  - rewrite map_map. induction IH as [|c children Hc _ IHc]; [done|].
    cbn [map]. by rewrite Hc, IHc.
Qed.

(** X11.  Of two calls of [updateLangUi] the later one decides: the page
    after both is the page after the later one alone.  In particular a call
    repeated with the same language changes nothing more. *)
Theorem last_language_shown_wins (a b : string) (d : document) :
  nonempty a = true → nonempty b = true →
  updateLangUi b (updateLangUi a d) = updateLangUi b d
  ∧ updateLangUi a (updateLangUi a d) = updateLangUi a d.
Proof.
  assert (∀ x y, nonempty x = true → nonempty y = true →
    updateLangUi y (updateLangUi x d) = updateLangUi y d) as H.
  { intros x y Hx Hy. unfold updateLangUi. rewrite Hx, Hy.
    cbn [negb doc_title doc_description doc_body]. f_equal.
    rewrite map_map. apply map_ext. intros n. apply press_press. }
  intros Ha Hb. by split; apply H.
Qed.

Lemma last_language_shown_wins_witness :
  updateLangUi "hu" (updateLangUi "it" sample_page) = updateLangUi "hu" sample_page.
Proof.
  apply (last_language_shown_wins "it" "hu" sample_page); reflexivity.
Defined.

(** ** The requests of a switch *)


Lemma tried_prefix e file bs :
  tried e file bs `prefix_of` map (λ b, b +:+ file) bs.
Proof.
  induction bs as [|b rest IH]; cbn [tried map]; [done|].
  apply prefix_cons. destruct (fetched e (b +:+ file)); [done|apply prefix_nil].
Qed.



Lemma load_dict_asks e lang bs w :
  ∃ evs,
    load_dict e lang bs w
    = (inr (first_fetched e (lang +:+ ".json") bs), emits evs w)
    ∧ requested_urls evs = tried e (lang +:+ ".json") bs.
Proof.
  revert w. induction bs as [|b rest IH]; intros w.
  - exists []. by rewrite emits_nil.
  - cbn [load_dict first_fetched tried]. unfold mbind, M_bind, try_catch.
    rewrite fetchJson_run. destruct (fetched e (b +:+ lang +:+ ".json")) as [x|doc];
      unfold console, emit, mret, M_ret.
    + edestruct IH as (evs & -> & Hevs).
      eexists. rewrite !emits_emits. split; [done|].
      rewrite !requested_urls_app, Hevs. done.
    + eexists. rewrite !emits_emits. split; done.
Qed.

Lemma load_fallback_asks e bs w :
  ∃ evs,
    load_fallback e bs w
    = (inr (first_fetched e (DEFAULT_LANG +:+ ".json") bs), emits evs w)
    ∧ requested_urls evs = tried e (DEFAULT_LANG +:+ ".json") bs.
Proof.
  revert w. induction bs as [|b rest IH]; intros w.
  - exists []. by rewrite emits_nil.
  - cbn [load_fallback first_fetched tried]. unfold mbind, M_bind, try_catch.
    rewrite fetchJson_run.
    destruct (fetched e (b +:+ DEFAULT_LANG +:+ ".json")) as [x|doc];
      unfold console, emit, mret, M_ret.
    + edestruct IH as (evs & -> & Hevs).
      eexists. rewrite !emits_emits. split; [done|].
      rewrite !requested_urls_app, Hevs. done.
    + eexists. rewrite !emits_emits. split; done.
Qed.

Section Asking.

Variable parseHTML : string → string → list node.

Lemma apply_default_asks api e bs w :
  ∃ evs1 evs2,
    apply_default parseHTML e bs w
    = (inr (match default_only e bs with DefaultOnly _ => true | _ => false end),
       emits evs2 (conclude parseHTML api e (default_only e bs) (emits evs1 w)))
    ∧ requested_urls evs1 ++ requested_urls evs2
      = tried e (DEFAULT_LANG +:+ ".json") bs.
Proof.
  unfold default_only.
  revert w. induction bs as [|b rest IH]; intros w.
  - exists [], []. by rewrite !emits_nil.
  - cbn [apply_default first_fetched tried]. unfold mbind, M_bind, try_catch.
    rewrite fetchJson_run.
    destruct (fetched e (b +:+ DEFAULT_LANG +:+ ".json")) as [x|doc];
      unfold console, emit, mret, M_ret.
    + edestruct IH as (evs1 & evs2 & -> & Hevs).
      eexists _, evs2. rewrite !emits_emits. split; [done|].
      rewrite !requested_urls_app, <- Hevs. done.
    + exists [Fetch (b +:+ DEFAULT_LANG +:+ ".json")],
        [Console LDebug "[i18n] applied default translations from"
           (b +:+ DEFAULT_LANG +:+ ".json")].
      split; done.
Qed.

Lemma recover_asks e lang w :
  ∃ evs1 evs2,
    (console LError "[i18n] failed to load any language file for" lang;;
     if negb (String.eqb lang DEFAULT_LANG) then
       fallbackLoaded ← apply_default parseHTML e bases;
       if negb fallbackLoaded
       then console LWarn "[i18n] could not load any default translations" ""
       else mret ()
     else mret ()) w
    = (inr (),
       emits evs2 (conclude parseHTML true e (recovery e lang bases) (emits evs1 w)))
    ∧ requested_urls evs1 ++ requested_urls evs2
      = if String.eqb lang DEFAULT_LANG then []
        else tried e (DEFAULT_LANG +:+ ".json") bases.
Proof.
  unfold recovery, mbind at 1, M_bind at 1, console at 1, emit.
  destruct (String.eqb lang DEFAULT_LANG); cbn [negb].
  - exists [Console LError "[i18n] failed to load any language file for" lang], [].
    cbn [conclude]. rewrite emits_nil. split; reflexivity.
  - unfold mbind, M_bind.
    edestruct (apply_default_asks true) as (evs1 & evs2 & -> & Hevs).
    unfold default_only.
    destruct (first_fetched e (DEFAULT_LANG +:+ ".json") bases) as [d|];
      cbn [negb conclude]; unfold console, emit, mret, M_ret.
    + eexists _, evs2. rewrite !emits_emits. split; [reflexivity|].
      by rewrite requested_urls_app.
    + exists ([Console LError "[i18n] failed to load any language file for" lang]
              ++ evs1 ++ evs2
              ++ [Console LWarn "[i18n] could not load any default translations" ""]), [].
      rewrite emits_nil, !emits_emits. split; [reflexivity|].
      rewrite !requested_urls_app, <- Hevs. cbn. by rewrite !app_nil_r.
Qed.

Lemma fallback_asks e lang w :
  ∃ fallbackDict evs,
    (if negb (String.eqb lang DEFAULT_LANG) then
       fallbackDict ← load_fallback e bases;
       (if missing fallbackDict
        then console LWarn "[i18n] could not load fallback language" ""
        else mret ());;
       mret fallbackDict
     else mret None) w
    = (inr fallbackDict, emits evs w)
    ∧ requested_urls evs
      = (if String.eqb lang DEFAULT_LANG then []
         else tried e (DEFAULT_LANG +:+ ".json") bases)
    ∧ (if String.eqb lang DEFAULT_LANG then empty_object
       else or_empty_opt (first_fetched e (DEFAULT_LANG +:+ ".json") bases))
      = or_empty_opt fallbackDict.
Proof.
  destruct (String.eqb lang DEFAULT_LANG); cbn [negb].
  - exists None, []. by rewrite emits_nil.
  - destruct (load_fallback_asks e bases w) as (evs & Hrun & Hevs).
    rewrite (bind_run _ _ _ _ _ Hrun).
    destruct (missing (first_fetched e (DEFAULT_LANG +:+ ".json") bases)).
    + eexists _, _. split; [|split; [|reflexivity]].
      * unfold mbind, M_bind, console, emit, mret, M_ret.
        by rewrite emits_emits.
      * rewrite requested_urls_app, Hevs. cbn. by rewrite app_nil_r.
    + eexists _, _. split; [|split; [|reflexivity]]; [reflexivity|done].
Qed.

Lemma setLang_asks e requested w :
  ∃ evs1 evs2,
    setLang parseHTML e requested w
    = (inr (),
       emits evs2
         (conclude parseHTML true e (outcome_of e (normalise requested))
            (emits evs1 (prelude e requested w))))
    ∧ requested_urls evs1 ++ requested_urls evs2
      = tried e (normalise requested +:+ ".json") bases
        ++ (if String.eqb (normalise requested) DEFAULT_LANG then []
            else tried e (DEFAULT_LANG +:+ ".json") bases).
Proof.
  unfold setLang. rewrite prelude_run.
  set (lang := normalise requested). set (w1 := prelude e requested w).
  unfold mbind at 1, M_bind at 1.
  destruct (load_dict_asks e lang bases w1) as (evsA & -> & HA).
  assert (∃ evs1 evs2,
    (console LError "[i18n] failed to load any language file for" lang;;
     if negb (String.eqb lang DEFAULT_LANG) then
       fallbackLoaded ← apply_default parseHTML e bases;
       if negb fallbackLoaded
       then console LWarn "[i18n] could not load any default translations" ""
       else mret ()
     else mret ()) (emits evsA w1)
    = (inr (),
       emits evs2 (conclude parseHTML true e (recovery e lang bases) (emits evs1 w1)))
    ∧ requested_urls evs1 ++ requested_urls evs2
      = tried e (lang +:+ ".json") bases
        ++ (if String.eqb lang DEFAULT_LANG then []
            else tried e (DEFAULT_LANG +:+ ".json") bases)) as Hrecover.
  { destruct (recover_asks e lang (emits evsA w1)) as (evs1 & evs2 & -> & Hevs).
    exists (evsA ++ evs1), evs2. rewrite emits_emits. split; [done|].
    by rewrite requested_urls_app, HA, <- app_assoc, Hevs. }
  unfold outcome_of.
  destruct (first_fetched e (lang +:+ ".json") bases) as [dict|] eqn:Hdict;
    cbn [missing]; [|exact Hrecover].
  destruct (truthy dict) eqn:Htruthy; cbn [negb]; [|exact Hrecover].
  clear Hrecover.
  assert (or_empty_opt (Some dict) = dict) as ->.
  { unfold or_empty_opt, or_empty. by rewrite Htruthy. }
  destruct (fallback_asks e lang (emits evsA w1)) as (fb & evsB & Hrun & HB & ->).
  rewrite (bind_run _ _ _ _ _ Hrun), finish_run, !emits_emits.
  eexists _, _. split; [reflexivity|].
  rewrite requested_urls_app, HA, HB. cbn. by rewrite app_nil_r.
Qed.

Lemma conclude_urls api e o w :
  requested_urls (events (conclude parseHTML api e o w))
  = requested_urls (events w).
Proof.
  destruct (conclude_events parseHTML api e o w) as (extra & -> & Hurls & _).
  by rewrite requested_urls_app, Hurls, app_nil_r.
Qed.






Lemma settled_urls api e o evs1 evs2 requested w :
  requested_urls (events (emits evs2
    (conclude parseHTML api e o (emits evs1 (prelude e requested w)))))
  = requested_urls (events w) ++ requested_urls evs1 ++ requested_urls evs2.
Proof.
  cbn [emits events]. rewrite requested_urls_app, conclude_urls.
  cbn [emits events prelude]. rewrite !requested_urls_app.
  cbn [requested_urls omap list_omap]. fold (requested_urls evs1).
  by rewrite app_nil_r, <- app_assoc.
Qed.


End Asking.

(** ** The stored preference *)

Lemma normalise_in_SUPPORTED requested : normalise requested ∈ SUPPORTED.
Proof.
  unfold normalise, SUPPORTED_has. case_bool_decide as H; [done|].
  unfold SUPPORTED, DEFAULT_LANG. set_solver.
Qed.

Lemma getInitialLang_saved e w code :
  storage_read_fails e = false →
  storage w !! STORAGE_KEY = Some code →
  code ∈ SUPPORTED →
  getInitialLang e w = (inr code, w).
Proof.
  intros Hread Hcode Hsupported.
  unfold getInitialLang, mbind, M_bind, try_catch, localStorage_getItem, mret, M_ret.
  rewrite Hread, Hcode, (supported_nonempty _ Hsupported).
  apply SUPPORTED_has_true in Hsupported. by rewrite Hsupported.
Qed.

Lemma getInitialLang_supported e w :
  ∃ lang, getInitialLang e w = (inr lang, w) ∧ lang ∈ SUPPORTED.
Proof.
  assert (DEFAULT_LANG ∈ SUPPORTED) as Hdefault.
  { unfold SUPPORTED, DEFAULT_LANG. set_solver. }
  assert (∃ lang,
    (let docLang := doc_lang (page w) in
     if nonempty docLang && SUPPORTED_has docLang then (inr docLang, w)
     else (@inr exn string DEFAULT_LANG, w)) = (inr lang, w) ∧ lang ∈ SUPPORTED) as Hdoc.
  { cbv zeta. destruct (nonempty (doc_lang (page w))); cbn [andb]; [|by eauto].
    destruct (SUPPORTED_has (doc_lang (page w))) eqn:H; [|by eauto].
    apply SUPPORTED_has_true in H. by eauto. }
  unfold getInitialLang, mbind, M_bind, try_catch, localStorage_getItem, mret, M_ret.
  destruct (storage_read_fails e); [exact Hdoc|].
  destruct (storage w !! STORAGE_KEY) as [code|]; [|exact Hdoc].
  destruct (nonempty code); cbn [andb]; [|exact Hdoc].
  destruct (SUPPORTED_has code) eqn:H; [|exact Hdoc].
  apply SUPPORTED_has_true in H. by eauto.
Qed.

(** X13.  [getInitialLang] returns a supported code whatever the storage
    and the document hold: a stored value or a document language outside
    [SUPPORTED] (or empty) is never passed on, so the normalisation at the
    head of [setLang] leaves the start-up language as it is. *)
Theorem initial_language_is_supported (e : env) (w : world) :
  ∃ lang,
    (getInitialLang e w).1 = inr lang
    ∧ lang ∈ SUPPORTED
    ∧ normalise lang = lang.
Proof.
  destruct (getInitialLang_supported e w) as (lang & -> & Hlang).
  exists lang. split; [done|]. split; [done|].
  unfold normalise. apply SUPPORTED_has_true in Hlang. by rewrite Hlang.
Qed.

Section Stored.

Variable parseHTML : string → string → list node.

Lemma revision_storage run e requested w :
  run ∈ revisions parseHTML →
  (run e requested w).1 = inr ()
  ∧ storage (run e requested w).2
    = if storage_write_fails e then storage w
      else <[STORAGE_KEY := normalise requested]> (storage w).
Proof.
  unfold revisions. rewrite !elem_of_cons, elem_of_nil.
  intros [-> | [-> | [-> | []]]].
  - destruct (setLang_run parseHTML e requested w) as (evs1 & evs2 & -> & _).
    split; [done|]. apply settled_storage.
  - destruct (FixedPath_setLang_run parseHTML e requested w) as (evs1 & evs2 & -> & _).
    split; [done|]. apply settled_storage.
  - destruct (DerivedPath_setLang_run parseHTML e requested w) as (evs1 & evs2 & -> & _).
    split; [done|]. apply settled_storage.
Qed.

(** X14.  Round trip through the storage: after a call of [setLang] (any
    revision) whose write to the storage went through, [getInitialLang]
    with a readable storage returns the language that call switched to,
    that is the requested code if supported and the default code if not,
    whatever the document's language attribute and whether or not any
    dictionary could be loaded. *)
Theorem stored_preference_is_read_back
    (run : env → string → M unit) (e e' : env) (requested : string) (w : world) :
  run ∈ revisions parseHTML →
  storage_write_fails e = false →
  storage_read_fails e' = false →
  getInitialLang e' (run e requested w).2
  = (inr (normalise requested), (run e requested w).2).
Proof.
  intros Hrun Hwrite Hread.
  destruct (revision_storage run e requested w Hrun) as [_ Hstorage].
  rewrite Hwrite in Hstorage.
  apply getInitialLang_saved; [done| |apply normalise_in_SUPPORTED].
  rewrite Hstorage. apply lookup_insert_eq.
Qed.

(** X15.  What [setLang] (any revision) does to the storage: no key other
    than [STORAGE_KEY] changes; a storage that refuses the write is left
    as it was; and if the stored preference was a supported code before
    the call, or absent, it is a supported code, or absent, after it. *)
Theorem only_the_preference_is_stored
    (run : env → string → M unit) (e : env) (requested : string) (w : world) :
  run ∈ revisions parseHTML →
  let after := storage (run e requested w).2 in
  (∀ key, key ≠ STORAGE_KEY → after !! key = storage w !! key)
  ∧ (storage_write_fails e = true → after = storage w)
  ∧ ((∀ code, storage w !! STORAGE_KEY = Some code → code ∈ SUPPORTED) →
     ∀ code, after !! STORAGE_KEY = Some code → code ∈ SUPPORTED).
Proof.
  intros Hrun after.
  destruct (revision_storage run e requested w Hrun) as [_ Hstorage].
  subst after. rewrite Hstorage. split; [|split].
  - intros key Hkey. destruct (storage_write_fails e); [done|].
    by rewrite lookup_insert_ne.
  - by intros ->.
  - intros Hbefore code. destruct (storage_write_fails e); [by apply Hbefore|].
    rewrite lookup_insert_eq. intros [= <-]. apply normalise_in_SUPPORTED.
Qed.

End Stored.

(** ** How a switch ends *)

Section Ends.

Variable parseHTML : string → string → list node.












End Ends.

(** ** The listeners *)

Lemma first_element_text k chain :
  first_element (replicate k NonElement ++ chain) = first_element chain.
Proof. induction k as [|k IH]; [done|]. cbn [replicate app first_element]. exact IH. Qed.

Lemma closest_unmarked name outer chain :
  Forall (λ attrs : gmap string string, attrs !! name = None) outer →
  closest name (map Element outer ++ chain) = closest name chain.
Proof.
  induction 1 as [|attrs outer Hattrs _ IH]; [done|].
  cbn [map app closest]. by rewrite Hattrs.
Qed.

Lemma first_element_elements (els : list (gmap string string)) attrs rest :
  ∃ a l, first_element (map Element els ++ Element attrs :: rest) = Element a :: l
         ∧ Element a :: l = map Element els ++ Element attrs :: rest.
Proof. destruct els as [|a els]; cbn [map app first_element]; by eauto. Qed.

Section Listeners.

Variable parseHTML : string → string → list node.

Lemma on_click_hit e k outer btn rest next w :
  Forall (λ attrs : gmap string string, attrs !! "data-set-lang" = None) outer →
  btn !! "data-set-lang" = Some next →
  on_click parseHTML e
    (replicate k NonElement ++ map Element outer ++ Element btn :: rest) w
  = if nonempty next
    then (inr true,
          (setLang parseHTML e next
             (emits [Console LLog "[i18n] click on" next] w)).2)
    else (inr true, emits [Console LLog "[i18n] click on" next] w).
Proof.
  intros Houter Hbtn. unfold on_click. rewrite first_element_text.
  destruct (first_element_elements outer btn rest) as (a & l & -> & Hshape).
  rewrite Hshape, (closest_unmarked _ _ _ Houter). cbn [closest]. rewrite Hbtn.
  cbv beta iota zeta. rewrite Hbtn.
  change (default "" (Some next)) with next. unfold mbind at 1, M_bind at 1, console, emit.
  destruct (nonempty next); cbn [negb]; [|done].
  destruct (setLang_run parseHTML e next
              (emits [Console LLog "[i18n] click on" next] w)) as (evs1 & evs2 & Hrun & _).
  unfold mbind, M_bind. by rewrite Hrun.
Qed.

Lemma on_click_nowhere e k w :
  on_click parseHTML e (replicate k NonElement) w = (inr false, w).
Proof.
  unfold on_click. rewrite <- (app_nil_r (replicate k NonElement)).
  by rewrite first_element_text.
Qed.

Lemma on_click_miss e k a outer rest w :
  Forall (λ attrs : gmap string string, attrs !! "data-set-lang" = None)
    (a :: outer) →
  match rest with [] | NonElement :: _ => True | Element _ :: _ => False end →
  on_click parseHTML e
    (replicate k NonElement ++ map Element (a :: outer) ++ rest) w
  = (inr false, w).
Proof.
  intros Houter Hrest. unfold on_click. rewrite first_element_text.
  assert (closest "data-set-lang" (map Element (a :: outer) ++ rest) = None) as Hnone.
  { rewrite (closest_unmarked _ _ _ Houter). by destruct rest as [|[|?] ?]. }
  cbn [map app first_element] in *. by rewrite Hnone.
Qed.

Lemma find_first {A : Type} (p : A → bool) (l : list A) :
  match List.find p l with
  | Some x =>
      ∃ outer rest, l = outer ++ x :: rest
                    ∧ Forall (λ a, p a = false) outer ∧ p x = true
  | None => Forall (λ a, p a = false) l
  end.
Proof.
  induction l as [|a l IH]; cbn [List.find]; [done|].
  destruct (p a) eqn:Ha.
  - exists [], l. by repeat split.
  - destruct (List.find p l) as [x|].
    + destruct IH as (outer & rest & -> & Houter & Hx).
      exists (a :: outer), rest. repeat split; [|done]. by constructor.
    + by constructor.
Qed.

Lemma unmarked_all name (l : list (gmap string string)) :
  Forall (λ a, hasAttribute name a = false) l →
  Forall (λ a : gmap string string, a !! name = None) l.
Proof.
  induction 1 as [|a l Ha _ IH]; constructor; [|done].
  unfold hasAttribute in Ha. by destruct (a !! name).
Qed.

(** X21.  The click listener, for a click whose target has [k] nodes of
    another kind below the first element on its way up (a text node that
    was clicked), then the elements [els] from the innermost outwards,
    then the document.  The innermost element that carries
    [data-set-lang], the target itself included, decides: the listener
    prevents the default action and, if the attribute's value is not
    empty, switches to it; a click with no such element around it does
    nothing at all, and does not prevent the default action. *)
Theorem click_goes_to_the_nearest_control
    (e : env) (k j : nat) (els : list (gmap string string)) (w : world) :
  on_click parseHTML e
    (replicate k NonElement ++ map Element els ++ replicate j NonElement) w
  = match List.find (hasAttribute "data-set-lang") els with
    | None => (inr false, w)
    | Some btn =>
        let next := default "" (btn !! "data-set-lang") in
        let logged := emits [Console LLog "[i18n] click on" next] w in
        if nonempty next
        then (inr true, (setLang parseHTML e next logged).2)
        else (inr true, logged)
    end.
Proof.
  pose proof (find_first (hasAttribute "data-set-lang") els) as Hfind.
  destruct (List.find (hasAttribute "data-set-lang") els) as [btn|].
  - destruct Hfind as (outer & rest & -> & Houter & Hbtn).
    unfold hasAttribute in Hbtn.
    destruct (btn !! "data-set-lang") as [next|] eqn:Hnext; [|done].
    rewrite map_app, <- app_assoc. cbn [map app].
    change (default "" (Some next)) with next. cbv zeta.
    apply on_click_hit; [by apply unmarked_all|done].
  - apply unmarked_all in Hfind. destruct els as [|a els].
    + cbn [map app]. rewrite <- replicate_add. apply on_click_nowhere.
    + apply on_click_miss; [done|]. by destruct j.
Qed.

End Listeners.

Section Keys.

Variable parseHTML : string → string → list node.

Lemma state_of_emits evs w : state_of (emits evs w) = state_of w.
Proof. reflexivity. Qed.

Lemma conclude_state api e o w w' :
  state_of w = state_of w' →
  state_of (conclude parseHTML api e o w) = state_of (conclude parseHTML api e o w').
Proof.
  destruct w as [s0 p0 d0 f0 a0 ev0], w' as [s1 p1 d1 f1 a1 ev1]. unfold state_of.
  cbn [storage page lastDict lastFallback window_i18n events].
  intros [= -> -> -> -> ->].
  destruct o as [|d|d f]; cbn [conclude]; [done|done|].
  destruct api; unfold try_catch, expose, remember, callApplyTranslations, mret, M_ret;
    cbn [fst snd storage page lastDict lastFallback window_i18n];
    try destruct (window_sealed e); reflexivity.
Qed.

Lemma prelude_state e requested w w' :
  state_of w = state_of w' →
  state_of (prelude e requested w) = state_of (prelude e requested w').
Proof.
  destruct w as [s0 p0 d0 f0 a0 ev0], w' as [s1 p1 d1 f1 a1 ev1]. unfold state_of, prelude.
  cbn [storage page lastDict lastFallback window_i18n events].
  by intros [= -> -> -> -> ->].
Qed.

Lemma setLang_state e requested w w' :
  state_of w = state_of w' →
  state_of (setLang parseHTML e requested w).2
  = state_of (setLang parseHTML e requested w').2.
Proof.
  intros H.
  destruct (setLang_run parseHTML e requested w) as (evs1 & evs2 & -> & _).
  destruct (setLang_run parseHTML e requested w') as (evs1' & evs2' & -> & _).
  cbn [snd]. rewrite !state_of_emits. apply conclude_state.
  rewrite !state_of_emits. by apply prelude_state.
Qed.

Lemma setLang_applied e requested w :
  applied (events (setLang parseHTML e requested w).2)
  = applied (events w) ++ calls (outcome_of e (normalise requested)).
Proof.
  destruct (setLang_run parseHTML e requested w) as (evs1 & evs2 & -> & H1 & H2 & _).
  by apply (settled_applied parseHTML _ _ _ _ _ _ _ _ H1 H2).
Qed.

Lemma setLang_urls e requested w :
  requested_urls (events (setLang parseHTML e requested w).2)
  = requested_urls (events w)
    ++ tried e (normalise requested +:+ ".json") bases
    ++ (if String.eqb (normalise requested) DEFAULT_LANG then []
        else tried e (DEFAULT_LANG +:+ ".json") bases).
Proof.
  destruct (setLang_asks parseHTML e requested w) as (evs1 & evs2 & -> & Hevs).
  cbn [snd]. by rewrite settled_urls, Hevs.
Qed.

Lemma setLang_returns e requested w :
  setLang parseHTML e requested w = (inr (), (setLang parseHTML e requested w).2).
Proof. by destruct (setLang_run parseHTML e requested w) as (evs1 & evs2 & -> & _). Qed.

Lemma on_keydown_hit e key attrs next w :
  key = "Enter" ∨ key = " " →
  attrs !! "data-set-lang" = Some next →
  on_keydown parseHTML e key (Some attrs) w
  = if nonempty next then (inr true, (setLang parseHTML e next w).2)
    else (inr true, w).
Proof.
  intros Hkey Hnext. unfold on_keydown.
  assert (negb (String.eqb key "Enter") && negb (String.eqb key " ") = false) as ->.
  { by destruct Hkey as [-> | ->]. }
  rewrite Hnext. destruct (nonempty next); [|done].
  unfold mbind, M_bind. by rewrite setLang_returns.
Qed.

(** X22.  The keydown listener.  A key other than Enter and Space does
    nothing, and so does any key while no element has the focus or the
    focused element does not itself carry [data-set-lang] (an ancestor
    that carries it is not looked for, unlike on a click).  Enter or Space
    on a focused control prevents the default action and has the effect of
    a click on that control: the same state, the same calls of
    [applyTranslations] and the same requests follow. *)
Theorem keyboard_activation_is_a_click
    (e : env) (key : string) (active : option (gmap string string)) (w : world) :
  (key ≠ "Enter" → key ≠ " " →
   on_keydown parseHTML e key active w = (inr false, w))
  ∧ (match active with
     | Some attrs => hasAttribute "data-set-lang" attrs = false
     | None => True
     end →
     on_keydown parseHTML e key active w = (inr false, w))
  ∧ (∀ attrs ancestors,
       key = "Enter" ∨ key = " " →
       active = Some attrs →
       hasAttribute "data-set-lang" attrs = true →
       let by_key := on_keydown parseHTML e key active w in
       let by_click := on_click parseHTML e (Element attrs :: ancestors) w in
       by_key.1 = inr true
       ∧ by_click.1 = inr true
       ∧ state_of by_key.2 = state_of by_click.2
       ∧ applied (events by_key.2) = applied (events by_click.2)
       ∧ requested_urls (events by_key.2) = requested_urls (events by_click.2)).
Proof.
  split; [|split].
  - intros HEnter HSpace. unfold on_keydown.
    apply String.eqb_neq in HEnter, HSpace. by rewrite HEnter, HSpace.
  - intros Hactive. unfold on_keydown.
    destruct (negb (String.eqb key "Enter") && negb (String.eqb key " ")); [done|].
    destruct active as [attrs|]; [|done].
    unfold hasAttribute in Hactive. by destruct (attrs !! "data-set-lang").
  - intros attrs ancestors Hkey -> Hattrs by_key by_click.
    unfold hasAttribute in Hattrs.
    destruct (attrs !! "data-set-lang") as [next|] eqn:Hnext; [|done].
    subst by_key by_click. rewrite (on_keydown_hit _ _ _ _ _ Hkey Hnext).
    pose proof (on_click_hit parseHTML e 0 [] attrs ancestors next w
                  (Forall_nil_2 _) Hnext) as Hclick.
    cbn [replicate map app] in Hclick. rewrite Hclick.
    destruct (nonempty next); cbn [fst snd].
    + split; [done|]. split; [done|]. split; [by apply setLang_state|].
      rewrite !setLang_applied, !setLang_urls. cbn [emits events].
      rewrite applied_app, requested_urls_app. cbn. by rewrite !app_nil_r.
    + split; [done|]. split; [done|]. split; [done|].
      cbn [emits events]. rewrite applied_app, requested_urls_app. cbn.
      by rewrite !app_nil_r.
Qed.

End Keys.

(** ** The running page *)

Lemma getInitialLang_emits e evs w :
  getInitialLang e (emits evs w) = ((getInitialLang e w).1, emits evs w).
Proof.
  unfold getInitialLang, mbind, M_bind, try_catch, localStorage_getItem, mret, M_ret.
  cbn [emits storage page].
  destruct (storage_read_fails e);
    [|destruct (storage w !! STORAGE_KEY) as [code|];
      [destruct (nonempty code && SUPPORTED_has code)|]];
    cbv zeta; cbn [emits storage page];
    try destruct (nonempty (doc_lang (page w)) && SUPPORTED_has (doc_lang (page w)));
    reflexivity.
Qed.

Section Closure.

Variable parseHTML : string → string → list node.
Variable P : world → Prop.
Variable E : env → Prop.
Hypothesis P_emits : ∀ evs w, P w → P (emits evs w).
Hypothesis P_setLang :
  ∀ e requested w, E e → P w → P (setLang parseHTML e requested w).2.

Lemma on_click_keeps e chain w :
  E e → P w → P (on_click parseHTML e chain w).2.
Proof.
  intros He Hw. unfold on_click.
  destruct (first_element chain) as [|[|a] l]; [exact Hw|exact Hw|].
  destruct (closest "data-set-lang" (Element a :: l)) as [btn|]; [|exact Hw].
  cbv zeta. unfold mbind at 1, M_bind at 1, console, emit.
  destruct (nonempty (default "" (btn !! "data-set-lang"))); cbn [negb].
  - unfold mbind, M_bind. rewrite setLang_returns.
    apply P_setLang; [done|]. by apply P_emits.
  - by apply P_emits.
Qed.

Lemma on_keydown_keeps e key active w :
  E e → P w → P (on_keydown parseHTML e key active w).2.
Proof.
  intros He Hw. unfold on_keydown.
  destruct (negb (String.eqb key "Enter") && negb (String.eqb key " "));
    [exact Hw|].
  destruct active as [attrs|]; [|exact Hw].
  destruct (attrs !! "data-set-lang") as [next|]; [|exact Hw].
  destruct (nonempty next); [|exact Hw].
  unfold mbind, M_bind. rewrite setLang_returns. by apply P_setLang.
Qed.

Lemma init_run e t :
  ∃ lang,
    (getInitialLang e (tab_world t)).1 = inr lang
    ∧ lang ∈ SUPPORTED
    ∧ init parseHTML e t
      = (inr (),
         Tab (setLang parseHTML e lang
                (emits [Console LLog "[i18n] init() initial lang=" lang]
                   (tab_world t))).2
           (tab_loading t) (tab_listeners t ++ [OnClick; OnKeydown])).
Proof.
  destruct (getInitialLang_supported e (tab_world t)) as (lang & Hrun & Hlang).
  exists lang. rewrite Hrun. split; [done|]. split; [done|].
  unfold init, in_tab, mbind, M_bind. rewrite Hrun.
  unfold console, emit, mret, M_ret. cbn [fst snd].
  unfold addEventListener. cbn [tab_world tab_loading tab_listeners].
  rewrite setLang_returns, <- app_assoc. reflexivity.
Qed.

Lemma init_keeps e t :
  E e → P (tab_world t) → P (tab_world (init parseHTML e t).2).
Proof.
  intros He Ht. destruct (init_run e t) as (lang & _ & _ & ->).
  cbn [snd tab_world]. apply P_setLang; [done|]. by apply P_emits.
Qed.

Lemma handle_keeps e ev l t :
  E e → P (tab_world t) → P (tab_world (handle parseHTML e ev l t).1).
Proof.
  intros He Ht. destruct l, ev; cbn [handle fst]; try done.
  - by apply init_keeps.
  - unfold in_tab. cbn [fst snd tab_world]. by apply on_click_keeps.
  - unfold in_tab. cbn [fst snd tab_world]. by apply on_keydown_keeps.
Qed.

Lemma listeners_keep e ev ls t b :
  E e → P (tab_world t) →
  P (tab_world
       (fold_left (λ acc l, let r := handle parseHTML e ev l acc.1 in
                            (r.1, acc.2 || r.2)) ls (t, b)).1).
Proof.
  revert t b. induction ls as [|l ls IH]; intros t b He Ht; [done|].
  cbn [fold_left]. cbv zeta. cbn [fst snd]. apply IH; [done|].
  by apply handle_keeps.
Qed.

Lemma dispatch_keeps e ev t :
  E e → P (tab_world t) → P (tab_world (dispatch parseHTML e ev t).1).
Proof.
  intros He Ht. unfold dispatch. cbv zeta. apply listeners_keep; [done|].
  by destruct ev.
Qed.

Lemma after_events_keeps evs t :
  Forall (λ p : env * dom_event, E p.1) evs →
  P (tab_world t) → P (tab_world (after_events parseHTML evs t)).
Proof.
  intros Hevs. revert t. induction Hevs as [|p evs Hp _ IH]; intros t Ht; [done|].
  unfold after_events. cbn [fold_left]. apply IH. by apply dispatch_keeps.
Qed.

End Closure.

Section Running.

Variable parseHTML : string → string → list node.

Lemma setLang_lang e requested w :
  doc_lang (page (setLang parseHTML e requested w).2) = normalise requested.
Proof.
  destruct (setLang_run parseHTML e requested w) as (evs1 & evs2 & -> & _).
  apply settled_lang.
Qed.

Lemma setLang_storage e requested w :
  storage (setLang parseHTML e requested w).2
  = if storage_write_fails e then storage w
    else <[STORAGE_KEY := normalise requested]> (storage w).
Proof.
  destruct (setLang_run parseHTML e requested w) as (evs1 & evs2 & -> & _).
  apply settled_storage.
Qed.

Lemma handle_listeners e ev l t :
  ev ≠ ContentLoaded →
  tab_listeners (handle parseHTML e ev l t).1 = tab_listeners t
  ∧ tab_loading (handle parseHTML e ev l t).1 = tab_loading t.
Proof. intros Hev. by destruct l, ev. Qed.

Lemma listeners_fold e ev ls t b :
  ev ≠ ContentLoaded →
  let t' := (fold_left (λ acc l, let r := handle parseHTML e ev l acc.1 in
                                 (r.1, acc.2 || r.2)) ls (t, b)).1 in
  tab_listeners t' = tab_listeners t ∧ tab_loading t' = tab_loading t.
Proof.
  intros Hev. revert t b. induction ls as [|l ls IH]; intros t b; [done|].
  cbn [fold_left]. cbv zeta. cbn [fst snd].
  destruct (handle_listeners e ev l t Hev) as [<- <-]. apply IH.
Qed.

Lemma dispatch_listeners e ev t :
  ev ≠ ContentLoaded →
  tab_listeners (dispatch parseHTML e ev t).1 = tab_listeners t
  ∧ tab_loading (dispatch parseHTML e ev t).1 = tab_loading t.
Proof.
  intros Hev. unfold dispatch. cbv zeta.
  destruct ev; [done| |]; by apply listeners_fold.
Qed.

(** X23.  What holds of the page whatever events arrive, in whatever
    environments, and whichever listeners are registered.  If the
    document's language and the stored preference (when there is one) are
    supported codes, they still are after the events; if moreover the
    storage accepts every write and the stored preference was the
    document's language, it still is; and the listeners register nothing:
    after events other than [DOMContentLoaded] the document has the
    listeners it had. *)
Theorem language_stays_supported (evs : list (env * dom_event)) (t : tab) :
  let supported (w : world) :=
    doc_lang (page w) ∈ SUPPORTED
    ∧ ∀ code, storage w !! STORAGE_KEY = Some code → code ∈ SUPPORTED in
  let agree (w : world) := storage w !! STORAGE_KEY = Some (doc_lang (page w)) in
  let t' := after_events parseHTML evs t in
  (supported (tab_world t) → supported (tab_world t'))
  ∧ (Forall (λ p : env * dom_event, storage_write_fails p.1 = false) evs →
     agree (tab_world t) → agree (tab_world t'))
  ∧ (Forall (λ p : env * dom_event, p.2 ≠ ContentLoaded) evs →
     tab_listeners t' = tab_listeners t ∧ tab_loading t' = tab_loading t).
Proof.
  intros supported agree t'. subst t'. split; [|split].
  - apply (after_events_keeps parseHTML supported (λ _, True)).
    + by intros evs' w.
    + intros e requested w _ [Hlang Hstored]. split.
      * rewrite setLang_lang. apply normalise_in_SUPPORTED.
      * intros code. rewrite setLang_storage.
        destruct (storage_write_fails e); [by apply Hstored|].
        rewrite lookup_insert_eq. intros [= <-]. apply normalise_in_SUPPORTED.
    + by apply Forall_true.
  - apply (after_events_keeps parseHTML agree
             (λ e, storage_write_fails e = false)).
    + by intros evs' w.
    + intros e requested w He _. unfold agree.
      rewrite setLang_lang, setLang_storage, He. apply lookup_insert_eq.
  - intros Hevs. revert t. induction Hevs as [|p evs Hp _ IH]; intros t; [done|].
    unfold after_events. cbn [fold_left].
    destruct (dispatch_listeners p.1 p.2 t Hp) as [<- <-]. apply IH.
Qed.

(** X24.  Start-up.  Run on a document that is past loading, the script
    does not throw, adds one click and one keydown listener, and switches
    to the initial language, a supported code, which is then the
    document's language.  Run on a document that is still loading it only
    writes its console line and waits: nothing is stored or requested and
    the page is untouched; and when [DOMContentLoaded] arrives, the world
    becomes what the script run on the loaded document would have made
    it. *)
Theorem start_up (e e' : env) (w : world) :
  let ready := script parseHTML e (Tab w false []) in
  let waiting := script parseHTML e (Tab w true []) in
  let started := (dispatch parseHTML e' ContentLoaded waiting.2).1 in
  (∃ lang,
     (getInitialLang e w).1 = inr lang
     ∧ lang ∈ SUPPORTED
     ∧ ready
       = (inr (),
          Tab (setLang parseHTML e lang
                 (emits [Console LLog "[i18n] script loaded" "";
                         Console LLog "[i18n] init() initial lang=" lang] w)).2
            false [OnClick; OnKeydown])
     ∧ doc_lang (page (tab_world ready.2)) = lang)
  ∧ waiting
    = (inr (),
       Tab (emits [Console LLog "[i18n] script loaded" ""] w) true
         [OnContentLoaded])
  ∧ tab_world started = tab_world (script parseHTML e' (Tab w false [])).2
  ∧ tab_listeners started = [OnContentLoaded; OnClick; OnKeydown]
  ∧ tab_loading started = false.
Proof.
  intros ready waiting started.
  assert (∀ e0 loading ls,
    ∃ lang,
      (getInitialLang e0 w).1 = inr lang ∧ lang ∈ SUPPORTED
      ∧ init parseHTML e0
          (Tab (emits [Console LLog "[i18n] script loaded" ""] w) loading ls)
        = (inr (),
           Tab (setLang parseHTML e0 lang
                  (emits [Console LLog "[i18n] script loaded" "";
                          Console LLog "[i18n] init() initial lang=" lang] w)).2
             loading (ls ++ [OnClick; OnKeydown]))) as Hinit.
  { intros e0 loading ls.
    destruct (init_run parseHTML e0
                (Tab (emits [Console LLog "[i18n] script loaded" ""] w) loading ls))
      as (lang & Hlang & Hsupported & Hrun).
    cbn [tab_world tab_loading tab_listeners] in Hlang, Hrun.
    rewrite getInitialLang_emits in Hlang. cbn [fst] in Hlang.
    exists lang. split; [done|]. split; [done|].
    rewrite Hrun, emits_emits. reflexivity. }
  assert (waiting
          = (inr (),
             Tab (emits [Console LLog "[i18n] script loaded" ""] w) true
               [OnContentLoaded])) as Hwaiting by reflexivity.
  split; [|split; [exact Hwaiting|]].
  - destruct (Hinit e false []) as (lang & Hlang & Hsupported & Hrun).
    exists lang. split; [done|]. split; [done|].
    assert (ready
            = (inr (),
               Tab (setLang parseHTML e lang
                      (emits [Console LLog "[i18n] script loaded" "";
                              Console LLog "[i18n] init() initial lang=" lang] w)).2
                 false [OnClick; OnKeydown])) as Hready.
    { subst ready. unfold script, in_tab, console, emit.
      cbn [fst snd tab_world tab_loading tab_listeners]. exact Hrun. }
    split; [exact Hready|]. rewrite Hready. cbn [snd tab_world].
    rewrite setLang_lang. unfold normalise.
    apply SUPPORTED_has_true in Hsupported. by rewrite Hsupported.
  - subst started. rewrite Hwaiting. cbn [snd].
    unfold dispatch. cbv zeta. cbn [tab_world tab_loading tab_listeners fold_left handle fst snd].
    destruct (Hinit e' false [OnContentLoaded]) as (lang & Hlang & Hsupported & Hrun).
    rewrite Hrun. cbn [snd tab_world tab_listeners tab_loading app].
    split; [|done].
    destruct (Hinit e' false []) as (lang' & Hlang' & _ & Hrun').
    assert (lang' = lang) as -> by congruence.
    unfold script, in_tab, console, emit.
    cbn [fst snd tab_world tab_loading tab_listeners].
    by rewrite Hrun'.
Qed.

End Running.

(** ** The further statements at sample inputs *)

(** X14 on the sample page: Italian is read back after a switch to it,
    and the default code after a switch to a code that is not supported. *)
Lemma stored_preference_is_read_back_witness :
  (getInitialLang both_served
     (setLang plain_text offline "it" sample_world).2).1 = inr "it"
  ∧ (getInitialLang both_served
       (FixedPath.setLang plain_text both_served "de" returning_world).2).1
    = inr "hu".
Proof.
  split.
  - rewrite (stored_preference_is_read_back plain_text (setLang plain_text)
               offline both_served "it" sample_world);
      [reflexivity|apply list_elem_of_here|reflexivity|reflexivity].
  - rewrite (stored_preference_is_read_back plain_text (FixedPath.setLang plain_text)
               both_served both_served "de" returning_world);
      [reflexivity|apply list_elem_of_further, list_elem_of_here
      |reflexivity|reflexivity].
Defined.

(** X15 for a returning visitor who switches to a code that is not
    supported: the preference stored afterwards is the default code. *)
Lemma only_the_preference_is_stored_witness :
  storage (DerivedPath.setLang plain_text offline "de" returning_world).2
    !! "theme" = None
  ∧ "hu" ∈ SUPPORTED.
Proof.
  destruct (only_the_preference_is_stored plain_text
              (DerivedPath.setLang plain_text) offline "de" returning_world)
    as (Hframe & _ & Hkept).
  { apply list_elem_of_further, list_elem_of_further, list_elem_of_here. }
  split.
  - rewrite Hframe; [reflexivity|discriminate].
  - apply Hkept.
    + intros code Hcode. vm_compute in Hcode. injection Hcode as <-.
      apply SUPPORTED_has_true. vm_compute. reflexivity.
    + vm_compute. reflexivity.
Defined.




(** X22: Enter on the focused Italian control of the sample page. *)
Lemma keyboard_activation_is_a_click_witness :
  (on_keydown plain_text both_served "Enter"
     (Some {[ "data-set-lang" := "it" ]}) sample_world).1 = inr true
  ∧ on_keydown plain_text both_served "Tab"
      (Some {[ "data-set-lang" := "it" ]}) sample_world
    = (inr false, sample_world).
Proof.
  destruct (keyboard_activation_is_a_click plain_text both_served "Enter"
              (Some {[ "data-set-lang" := "it" ]}) sample_world) as (_ & _ & Hhit).
  destruct (keyboard_activation_is_a_click plain_text both_served "Tab"
              (Some {[ "data-set-lang" := "it" ]}) sample_world) as (Hmiss & _).
  split.
  - destruct (Hhit {[ "data-set-lang" := "it" ]} [NonElement]) as (Hkey & _);
      [by left|reflexivity|reflexivity|exact Hkey].
  - apply Hmiss; discriminate.
Defined.

(** X23: a click on the Italian control after start-up, with the storage
    working: the stored preference is the document's language. *)
Lemma language_stays_supported_witness :
  storage
    (tab_world
       (after_events plain_text [(both_served, sample_click)]
          (script plain_text both_served (Tab sample_world false [])).2))
    !! STORAGE_KEY
  = Some
      (doc_lang
         (page
            (tab_world
               (after_events plain_text [(both_served, sample_click)]
                  (script plain_text both_served (Tab sample_world false [])).2)))).
Proof.
  destruct (language_stays_supported plain_text [(both_served, sample_click)]
              (script plain_text both_served (Tab sample_world false [])).2)
    as (_ & Hagree & _).
  apply Hagree.
  - repeat constructor.
  - vm_compute. reflexivity.
Defined.
